(** * cockpit.transports: file-descriptor transports for asyncio

    A shallow embedding of [src/cockpit/transports.py] and the properties of
    its duplex transport: write queueing and draining, half-close, close and
    abort sequencing, read-side end of file, flow-control notifications and the
    pseudo-terminal flavour of the subprocess transport.

    Conventions of the embedding.
    - The objects the module mutates ([self], the event loop's reader and
      writer tables) live in one [world]; every method is a computation in a
      state-and-exception monad [M].  As in Python, what a method wrote before
      it raised stays written.
    - The operating system is an oracle: the answer of each [os.read],
      [os.write], [os.writev] is an argument of the method that makes the call.
    - Calls made on the protocol (the consumer) and effects on the kernel are
      appended to [trace].  Protocol callbacks are taken to return without
      calling back into the transport; [eof_received]'s answer is an argument.
    - The loop's tables hold only what this module registers.
    - [os_writev] also has the answers of a gather write on [self._out_fd],
      which the call as written, [os.writev(self._queue)], never gets: they
      add runs to [reachable], so what is proved of every reachable state
      holds of the source; what the source itself does is said of the calls
      that are [as_written].
    - The constructor of the subprocess transport is modelled from
      [os.openpty] and [subprocess.Popen] on: the registration with the child
      watcher ([_get_watcher], modelled by itself) is not part of it, and a
      [window] is taken to fit the 16 bits [set_window_size] packs it in. *)

From stdpp Require Import base option list gmap.
From Stdlib Require Import ZArith Lia.
From Stdlib Require Strings.Byte.

Open Scope Z_scope.

(** ** Data *)

Abbreviation bytes := (list Byte.byte).

(** len(block), as the integer the code compares byte counts with. *)
Definition len (b : bytes) : Z := Z.of_nat (length b).

(** block[n:] and block[:n] for 0 <= n. *)
Definition bytes_from (n : Z) (b : bytes) : bytes := drop (Z.to_nat n) b.
Definition bytes_upto (n : Z) (b : bytes) : bytes := take (Z.to_nat n) b.

(** The exceptions the module raises, or lets through.  [OSError] carries the
    subclass that matters to the handlers: [IOError] is an alias of [OSError],
    so [except IOError] takes every [OSError c]; [except BrokenPipeError] takes
    only [OSError EPIPE]. *)
Inductive oserror := EPIPE | EIO | EAGAIN | EOTHER.

Inductive exn :=
| AssertionError
| NotImplementedError
| RuntimeError
| TypeError
| AttributeError
| IndexError
| OSError (c : oserror).

Definition is_IOError (e : exn) : bool :=
  match e with OSError _ => true | _ => false end.

Definition is_BrokenPipeError (e : exn) : bool :=
  match e with OSError EPIPE => true | _ => false end.

(** Answers of the operating system. *)
Inductive read_answer :=
| RdData (data : bytes)          (* os.read returned data; b'' at end of file *)
| RdFail (c : oserror).          (* os.read raised *)

Inductive write_answer :=
| WrAccepted (n_bytes : Z)       (* os.write returned the number of bytes taken *)
| WrFail (c : oserror).          (* os.write raised *)

(** [_write_ready] calls [os.writev(self._queue)], with the buffer list as the
    only argument.  [os.writev] is declared as [writev(fd, buffers)]: CPython
    rejects a call with one argument with [TypeError] before any I/O
    ([WvArity]).  The other two answers are those of the gather write itself,
    so that the handler's body is covered as well. *)
Inductive writev_answer :=
| WvArity
| WvAccepted (n_bytes : Z)
| WvFail (c : oserror).

(** subprocess.Popen's stdin/stdout/stderr arguments. *)
Inductive stdio_arg := PIPE | DEVNULL | STDOUT | FD (fd : Z).

(** The Popen object: a stream attribute is a file object (here its fileno)
    exactly when PIPE was asked for that stream, and None otherwise. *)
Record Popen := mkPopen {
  pid : Z;
  p_stdin : option Z;
  p_stdout : option Z;
  p_stderr : option Z
}.

Record Spooler := mkSpooler {
  sp_fd : Z;
  sp_contents : list bytes
}.

(** The three classes built on [_Transport], each with the attributes it sets
    once, in its constructor.  [_Transport] itself leaves [can_write_eof] and
    [_write_eof_now] to them (its own raise NotImplementedError), and every
    transport is an instance of one of the three. *)
Inductive endpoint :=
| SubprocessTransport (_process : Popen) (_pty_fd : option Z)
| SocketTransport (_socket : Z)
| StdioTransport.

Record transport := mkTransport {
  _queue : option (list bytes);
  _in_fd : Z;
  _out_fd : Z;
  _closing : bool;
  _is_reading : bool;
  _eof : bool;
  _eio_is_eof : bool;
  sub : endpoint;
  _stderr : option Spooler;      (* SubprocessTransport only *)
  _returncode : option Z         (* SubprocessTransport only *)
}.

(** Callbacks the module hands to loop.add_reader / loop.add_writer. *)
Inductive handler := H_read_ready | H_write_ready | H_spooler_read_ready.

Record event_loop := mkLoop {
  readers : gmap Z handler;
  writers : gmap Z handler
}.

(** What the outside sees: calls on the protocol and effects on the kernel. *)
Inductive obs :=
| connection_made
| data_received (data : bytes)
| eof_received
| connection_lost (exc : option exn)
| pause_writing
| resume_writing
| process_exited
| os_wrote (fd : Z) (data : bytes)      (* bytes the kernel took from a write *)
| stdin_closed (fd : Z)                 (* self._process.stdin.close() *)
| shutdown_wr (fd : Z)                  (* socket.shutdown(SHUT_WR) *)
| os_closed (fd : Z)
| window_size (fd : Z) (rows cols : Z). (* ioctl TIOCSWINSZ *)

Record world := mkWorld {
  self : transport;
  loop : event_loop;
  trace : list obs
}.

(** ** The state-and-exception monad *)

Inductive result (A : Type) :=
| Ok (a : A)
| Raise (e : exn).
Arguments Ok {A} a.
Arguments Raise {A} e.

Definition M (A : Type) : Type := world -> result A * world.

Definition ret {A} (a : A) : M A := fun w => (Ok a, w).

Definition bind {A B} (c : M A) (k : A -> M B) : M B :=
  fun w => match c w with
           | (Ok a, w') => k a w'
           | (Raise e, w') => (Raise e, w')
           end.

Declare Scope py_scope.
Delimit Scope py_scope with py.
Notation "x ← c ; k" := (bind c (fun x => k))
  (at level 20, c at level 100, k at level 200, only parsing) : py_scope.
Notation "c ;; k" := (bind c (fun _ => k))
  (at level 100, k at level 200, only parsing, right associativity) : py_scope.
Open Scope py_scope.

Definition raise {A} (e : exn) : M A := fun w => (Raise e, w).

(** try: c / except <class> as e: h e *)
Definition try_except {A} (c : M A) (catches : exn -> bool) (h : exn -> M A) : M A :=
  fun w => match c w with
           | (Raise e, w') => if catches e then h e w' else (Raise e, w')
           | r => r
           end.

Definition gets {A} (f : transport -> A) : M A := fun w => (Ok (f (self w)), w).

Definition modify (f : transport -> transport) : M unit :=
  fun w => (Ok tt, mkWorld (f (self w)) (loop w) (trace w)).

Definition on_loop (f : event_loop -> event_loop) : M unit :=
  fun w => (Ok tt, mkWorld (self w) (f (loop w)) (trace w)).

Definition emit (o : obs) : M unit :=
  fun w => (Ok tt, mkWorld (self w) (loop w) (trace w ++ [o])).

Definition assert_ (b : bool) : M unit :=
  if b then ret tt else raise AssertionError.

(** Attribute assignments. *)
Definition set_queue (x : option (list bytes)) (t : transport) : transport :=
  mkTransport x (_in_fd t) (_out_fd t) (_closing t) (_is_reading t)
              (_eof t) (_eio_is_eof t) (sub t) (_stderr t) (_returncode t).
Definition set_in_fd (x : Z) (t : transport) : transport :=
  mkTransport (_queue t) x (_out_fd t) (_closing t) (_is_reading t)
              (_eof t) (_eio_is_eof t) (sub t) (_stderr t) (_returncode t).
Definition set_out_fd (x : Z) (t : transport) : transport :=
  mkTransport (_queue t) (_in_fd t) x (_closing t) (_is_reading t)
              (_eof t) (_eio_is_eof t) (sub t) (_stderr t) (_returncode t).
Definition set_closing (x : bool) (t : transport) : transport :=
  mkTransport (_queue t) (_in_fd t) (_out_fd t) x (_is_reading t)
              (_eof t) (_eio_is_eof t) (sub t) (_stderr t) (_returncode t).
Definition set_is_reading (x : bool) (t : transport) : transport :=
  mkTransport (_queue t) (_in_fd t) (_out_fd t) (_closing t) x
              (_eof t) (_eio_is_eof t) (sub t) (_stderr t) (_returncode t).
Definition set_eof (x : bool) (t : transport) : transport :=
  mkTransport (_queue t) (_in_fd t) (_out_fd t) (_closing t) (_is_reading t)
              x (_eio_is_eof t) (sub t) (_stderr t) (_returncode t).
Definition set_stderr (x : option Spooler) (t : transport) : transport :=
  mkTransport (_queue t) (_in_fd t) (_out_fd t) (_closing t) (_is_reading t)
              (_eof t) (_eio_is_eof t) (sub t) x (_returncode t).
Definition set_returncode (x : option Z) (t : transport) : transport :=
  mkTransport (_queue t) (_in_fd t) (_out_fd t) (_closing t) (_is_reading t)
              (_eof t) (_eio_is_eof t) (sub t) (_stderr t) x.

(** The loop's registration primitives. *)
Definition add_reader (fd : Z) (h : handler) : M unit :=
  on_loop (fun l => mkLoop (<[fd := h]> (readers l)) (writers l)).
Definition remove_reader (fd : Z) : M unit :=
  on_loop (fun l => mkLoop (delete fd (readers l)) (writers l)).
Definition add_writer (fd : Z) (h : handler) : M unit :=
  on_loop (fun l => mkLoop (readers l) (<[fd := h]> (writers l))).
Definition remove_writer (fd : Z) : M unit :=
  on_loop (fun l => mkLoop (readers l) (delete fd (writers l))).

(** The system calls, answered by the oracle. *)
Definition os_read (r : read_answer) : M bytes :=
  match r with
  | RdData data => ret data
  | RdFail c => raise (OSError c)
  end.

Definition os_write (fd : Z) (data : bytes) (r : write_answer) : M Z :=
  match r with
  | WrAccepted n => emit (os_wrote fd (bytes_upto n data)) ;; ret n
  | WrFail c => raise (OSError c)
  end.

(** [os.writev(self._queue)] as the source has it; for the two answers of the
    gather write the descriptor is the one registered for writing,
    [self._out_fd]. *)
Definition os_writev (fd : Z) (buffers : list bytes) (r : writev_answer) : M Z :=
  match r with
  | WvArity => raise TypeError
  | WvAccepted n => emit (os_wrote fd (bytes_upto n (concat buffers))) ;; ret n
  | WvFail c => raise (OSError c)
  end.

(** ** class _Transport *)

Definition BLOCK_SIZE : Z := 1024 * 1024.

Definition pause_reading : M unit :=
  reading ← gets _is_reading;
  if reading then
    fd ← gets _in_fd;
    remove_reader fd;;
    modify (set_is_reading false)
  else ret tt.

Definition resume_reading : M unit :=
  reading ← gets _is_reading;
  fd ← gets _in_fd;
  if negb reading && negb (fd =? -1) then
    add_reader fd H_read_ready;;
    modify (set_is_reading true)
  else ret tt.

Definition _close_reader : M unit :=
  pause_reading;;
  modify (set_in_fd (-1)).

Definition _remove_write_queue : M unit :=
  q ← gets _queue;
  match q with
  | Some _ =>
      emit resume_writing;;
      fd ← gets _out_fd;
      remove_writer fd;;
      modify (set_queue None)
  | None => ret tt
  end.

Definition _create_write_queue (data : bytes) : M unit :=
  q ← gets _queue;
  match q with
  | Some _ => raise AssertionError       (* assert self._queue is None *)
  | None =>
      fd ← gets _out_fd;
      add_writer fd H_write_ready;;
      modify (set_queue (Some [data]));;
      emit pause_writing
  end.

Definition abort : M unit :=
  modify (set_closing true);;
  _close_reader;;
  _remove_write_queue;;
  emit (connection_lost None).

(** can_write_eof and _write_eof_now, as the three classes define them. *)
Definition can_write_eof : M bool :=
  e ← gets sub;
  match e with
  | SubprocessTransport process _ => ret (bool_decide (p_stdin process ≠ None))
  | SocketTransport _ => ret true
  | StdioTransport => ret false
  end.

Definition _write_eof_now : M unit :=
  e ← gets sub;
  match e with
  | SubprocessTransport process _ =>
      match p_stdin process with
      | Some fd =>
          emit (stdin_closed fd);;
          modify (set_out_fd (-1))
      | None => ret tt
      end
  | SocketTransport sock => emit (shutdown_wr sock)
  | StdioTransport => raise RuntimeError
  end.

Definition write_eof : M unit :=
  eof ← gets _eof;
  assert_ (negb eof);;
  modify (set_eof true);;
  q ← gets _queue;
  match q with
  | None => _write_eof_now
  | Some _ => ret tt
  end.

Definition get_write_buffer_size : M Z :=
  q ← gets _queue;
  match q with
  | None => ret 0
  | Some blocks => ret (foldr Z.add 0 (len <$> blocks))
  end.

(** [_write_ready] calls [self._consider_closing()]; no class of the module
    defines that attribute, so the lookup raises. *)
Definition _consider_closing : M unit := raise AttributeError.

(** The [while n_bytes: ... else: ...] loop of [_write_ready] on the deque:
    how the loop is left, and the deque it leaves.  [LoopElse] is the exit
    through the loop condition, which runs the [else] suite. *)
Inductive loop_exit := LoopBreak | LoopElse | LoopPopEmpty.

Fixpoint dequeue (q : list bytes) (n_bytes : Z) : loop_exit * list bytes :=
  if n_bytes =? 0 then (LoopElse, q)
  else match q with
       | [] => (LoopPopEmpty, [])
       | block :: q' =>
           if len block >? n_bytes
           then (LoopBreak, bytes_from n_bytes block :: q')
           else dequeue q' (n_bytes - len block)
       end.

Definition _write_ready (r : writev_answer) : M unit :=
  q ← gets _queue;
  match q with
  | None => raise AssertionError         (* assert self._queue is not None *)
  | Some blocks =>
      fd ← gets _out_fd;
      n ← try_except (n_bytes ← os_writev fd blocks r; ret (Some n_bytes))
                     is_BrokenPipeError
                     (fun _ => abort;; ret None);
      match n with
      | None => ret tt                   (* return *)
      | Some n_bytes =>
          let '(how, blocks') := dequeue blocks n_bytes in
          modify (set_queue (Some blocks'));;
          match how with
          | LoopPopEmpty => raise IndexError
          | LoopBreak => ret tt
          | LoopElse =>
              _remove_write_queue;;
              eof ← gets _eof;
              (if eof then _write_eof_now;; _consider_closing else ret tt);;
              closing ← gets _closing;
              if closing then abort else ret tt
          end
      end
  end.

Definition write (data : bytes) (r : write_answer) : M unit :=
  closing ← gets _closing;
  assert_ (negb closing);;
  eof ← gets _eof;
  assert_ (negb eof);;
  q ← gets _queue;
  match q with
  | Some blocks => modify (set_queue (Some (blocks ++ [data])))
  | None =>
      fd ← gets _out_fd;
      n ← try_except (n_bytes ← os_write fd data r; ret (Some n_bytes))
                     is_BrokenPipeError
                     (fun _ => abort;; ret None);
      match n with
      | None => ret tt                   (* return *)
      | Some n_bytes =>
          if negb (n_bytes =? len data)
          then _create_write_queue (bytes_from n_bytes data)
          else ret tt
      end
  end.

Definition close : M unit :=
  closing ← gets _closing;
  if closing then ret tt
  else
    modify (set_closing true);;
    _close_reader;;
    q ← gets _queue;
    match q with
    | Some _ => ret tt
    | None => abort
    end.

Definition _read_ready (r : read_answer) (keep_open : bool) : M unit :=
  data ← try_except (os_read r) is_IOError
                    (fun e => eio ← gets _eio_is_eof;
                              if negb eio then raise e else ret []);
  match data with
  | _ :: _ => emit (data_received data)
  | [] =>
      _close_reader;;
      emit eof_received;;
      if negb keep_open then close else ret tt
  end.

(** ** class Spooler

    The Spooler of a subprocess transport is its [_stderr] attribute. *)

Definition Spooler_close : M unit :=
  s ← gets _stderr;
  match s with
  | Some sp =>
      if negb (sp_fd sp =? -1) then
        remove_reader (sp_fd sp);;
        emit (os_closed (sp_fd sp));;
        modify (set_stderr (Some (mkSpooler (-1) (sp_contents sp))))
      else ret tt
  | None => ret tt
  end.

Definition Spooler__read_ready (r : read_answer) : M unit :=
  data ← os_read r;
  match data with
  | _ :: _ =>
      s ← gets _stderr;
      match s with
      | Some sp =>
          modify (set_stderr (Some (mkSpooler (sp_fd sp) (sp_contents sp ++ [data]))))
      | None => ret tt
      end
  | [] => Spooler_close
  end.

(** [Spooler.get]: [avail] lists the answers of the reads that [select] finds
    ready without waiting; past them, or once the descriptor is -1,
    [_is_ready] is false. *)
Fixpoint Spooler_drain (avail : list read_answer) : M unit :=
  match avail with
  | [] => ret tt
  | r :: rest =>
      s ← gets _stderr;
      match s with
      | Some sp =>
          if sp_fd sp =? -1 then ret tt
          else Spooler__read_ready r;; Spooler_drain rest
      | None => ret tt
      end
  end.

Definition Spooler_get (avail : list read_answer) : M bytes :=
  Spooler_drain avail;;
  s ← gets _stderr;
  ret (concat (default [] (sp_contents <$> s))).

(** ** class SubprocessTransport *)

Definition get_stderr (avail : list read_answer) : M bytes :=
  s ← gets _stderr;
  match s with
  | Some _ => Spooler_get avail
  | None => ret []
  end.

Definition _exited (pid' code : Z) : M unit :=
  e ← gets sub;
  match e with
  | SubprocessTransport process _ =>
      assert_ (pid process =? pid');;
      modify (set_returncode (Some code));;
      emit process_exited
  | _ => raise AttributeError
  end.

(** ** Constructors *)

(** [_Transport.__init__]: the attributes, [connection_made], then
    [resume_reading].  [_eio_is_eof] is the class attribute (False) unless the
    subclass has set it on the instance before. *)
Definition _Transport__init__ (e : endpoint) (eio : bool) (in_fd out_fd : Z) : M unit :=
  modify (fun t => mkTransport None in_fd out_fd false false false eio e
                               (_stderr t) (_returncode t));;
  emit connection_made;;
  resume_reading.

Definition fresh : world :=
  mkWorld (mkTransport None (-1) (-1) false false false false StdioTransport
                       None None)
          (mkLoop ∅ ∅) [].

Definition new_SocketTransport (sock : Z) : world :=
  (_Transport__init__ (SocketTransport sock) false sock sock fresh).2.

Definition new_StdioTransport : world :=
  (_Transport__init__ StdioTransport false 0 1 fresh).2.

(** What the spawn gives back: the descriptors of [os.openpty], of the pipes
    [subprocess.Popen] creates where PIPE is asked, of [os.dup], and the pid. *)
Record spawned := mkSpawned {
  openpty : Z * Z;
  child_pid : Z;
  stdin_fileno : Z;
  stdout_fileno : Z;
  stderr_fileno : Z;
  dup_fd : Z
}.

Definition Popen_stream (arg : option stdio_arg) (fileno : Z) : option Z :=
  match arg with
  | Some PIPE => Some fileno
  | _ => None
  end.

Definition Popen_ (stdin stdout stderr : option stdio_arg) (os : spawned) : Popen :=
  mkPopen (child_pid os)
          (Popen_stream stdin (stdin_fileno os))
          (Popen_stream stdout (stdout_fileno os))
          (Popen_stream stderr (stderr_fileno os)).

(** [Spooler.__init__(loop, fd)], building [self._stderr]. *)
Definition Spooler__init__ (fd : Z) (os : spawned) : M unit :=
  modify (set_stderr (Some (mkSpooler (dup_fd os) [])));;
  add_reader (dup_fd os) H_spooler_read_ready.

(** [SubprocessTransport.__init__(loop, protocol, args, pty, window, **kwargs)];
    of the keyword arguments only [stderr] matters to the transport. *)
Definition new_SubprocessTransport (pty : bool) (window : option (Z * Z))
    (kw_stderr : option stdio_arg) (os : spawned) : world :=
  let '(pty_fd, process, in_fd, out_fd, eio, pre) :=
    if pty then
      let '(master, session_fd) := openpty os in
      let resize := match window with
                    | Some (rows, cols) => emit (window_size master rows cols)
                    | None => ret tt
                    end in
      let process := Popen_ (Some (FD session_fd)) (Some (FD session_fd))
                            (Some (FD session_fd)) os in
      (Some master, process, master, master, true,
       resize;; emit (os_closed session_fd))
    else
      let process := Popen_ (Some PIPE) (Some PIPE) kw_stderr os in
      (None, process, default (-1) (p_stdout process),
       default (-1) (p_stdin process), false, ret tt) in
  let stderr :=
    match p_stderr process with
    | Some fd => Spooler__init__ fd os
    | None => modify (set_stderr None)
    end in
  ((pre;; stderr;;
    _Transport__init__ (SubprocessTransport process pty_fd) eio in_fd out_fd)
     fresh).2.

(** ** Runs

    What can happen to a transport: the consumer calls a method, or the loop
    (or the child watcher) runs a callback that is registered. *)
Inductive call :=
| DoWrite (data : bytes) (r : write_answer)
| DoWriteEof
| DoPauseReading
| DoResumeReading
| DoClose
| DoAbort
| DoGetStderr (avail : list read_answer)
| OnReadReady (r : read_answer) (keep_open : bool)
| OnWriteReady (r : writev_answer)
| OnSpoolerReady (r : read_answer)
| OnExited (pid' code : Z).

Definition perform (c : call) : M unit :=
  match c with
  | DoWrite data r => write data r
  | DoWriteEof => write_eof
  | DoPauseReading => pause_reading
  | DoResumeReading => resume_reading
  | DoClose => close
  | DoAbort => abort
  | DoGetStderr avail => get_stderr avail;; ret tt
  | OnReadReady r keep_open => _read_ready r keep_open
  | OnWriteReady r => _write_ready r
  | OnSpoolerReady r => Spooler__read_ready r
  | OnExited pid' code => _exited pid' code
  end.

Definition exec (c : call) (w : world) : world := (perform c w).2.

Definition registered (h : handler) (table : gmap Z handler) : Prop :=
  ∃ fd, table !! fd = Some h.

Definition is_subprocess (w : world) : Prop :=
  match sub (self w) with
  | SubprocessTransport _ _ => True
  | _ => False
  end.

(** The kernel takes between nothing and all of what it is offered; the loop
    runs a callback only while it is registered; [os.read(fd, size)] returns at
    most [size] bytes. *)
Definition enabled (c : call) (w : world) : Prop :=
  match c with
  | DoWrite data (WrAccepted n) => 0 <= n <= len data
  | OnReadReady r _ =>
      registered H_read_ready (readers (loop w)) ∧
      match r with RdData data => len data <= BLOCK_SIZE | RdFail _ => True end
  | OnWriteReady r =>
      registered H_write_ready (writers (loop w)) ∧
      match r with
      | WvAccepted n => 0 <= n <= len (concat (default [] (_queue (self w))))
      | _ => True
      end
  | OnSpoolerReady r =>
      registered H_spooler_read_ready (readers (loop w)) ∧
      match r with RdData data => len data <= 8192 | RdFail _ => True end
  | DoGetStderr _ => is_subprocess w
  | OnExited _ _ => is_subprocess w
  | _ => True
  end.

(** [os.dup] returns a descriptor that is not in use: it is neither -1 nor the
    descriptor the transport reads from. *)
Definition spawn_ok (os : spawned) : Prop :=
  dup_fd os ≠ -1 ∧ dup_fd os ≠ stdout_fileno os.

Inductive initial : world -> Prop :=
| initial_socket sock : initial (new_SocketTransport sock)
| initial_stdio : initial new_StdioTransport
| initial_subprocess pty window kw_stderr os :
    spawn_ok os -> initial (new_SubprocessTransport pty window kw_stderr os).

Inductive reach (init : world -> Prop) (allowed : call -> world -> Prop) : world -> Prop :=
| reach_initial w : init w -> reach init allowed w
| reach_call c w : reach init allowed w -> allowed c w -> reach init allowed (exec c w).

Definition reachable : world -> Prop := reach initial enabled.

Definition run (cs : list call) (w : world) : world := foldl (fun w c => exec c w) w cs.

(** ** Reading the trace *)

Definition is_connection_lost (o : obs) : bool :=
  match o with connection_lost _ => true | _ => false end.

Definition is_eof_received (o : obs) : bool :=
  match o with eof_received => true | _ => false end.

Definition is_flow (o : obs) : bool :=
  match o with pause_writing | resume_writing => true | _ => false end.

(** The callbacks the transport makes on its protocol.  [process_exited] is
    made on behalf of the child watcher, not of the byte stream. *)
Definition transport_callback (o : obs) : bool :=
  match o with
  | connection_made | data_received _ | eof_received | connection_lost _
  | pause_writing | resume_writing => true
  | _ => false
  end.

Fixpoint count (p : obs -> bool) (tr : list obs) : nat :=
  match tr with
  | [] => 0
  | o :: tr' => ((if p o then 1 else 0) + count p tr')%nat
  end.

(** The flow-control calls of a trace, in order. *)
Definition flow_calls (tr : list obs) : list obs := List.filter is_flow tr.

(** The bytes the kernel took on descriptor [fd], in order. *)
Fixpoint wrote (fd : Z) (tr : list obs) : bytes :=
  match tr with
  | [] => []
  | os_wrote fd' data :: tr' => if fd' =? fd then data ++ wrote fd tr' else wrote fd tr'
  | _ :: tr' => wrote fd tr'
  end.

(** The half-close actions of a trace. *)
Definition is_half_close (o : obs) : bool :=
  match o with stdin_closed _ | shutdown_wr _ => true | _ => false end.

Definition has_queue (w : world) : bool :=
  match _queue (self w) with Some _ => true | None => false end.

(** ** Invariants *)

(** The read side: [_is_reading] mirrors the registration of [_read_ready],
    which is only ever made on a valid [_in_fd]; the Spooler's descriptor is
    not the transport's. *)
Record ReaderInv (w : world) : Prop := {
  inv_reading :
    _is_reading (self w) = true ->
    readers (loop w) !! _in_fd (self w) = Some H_read_ready ∧ _in_fd (self w) ≠ -1;
  inv_read_ready : forall fd,
    readers (loop w) !! fd = Some H_read_ready ->
    _is_reading (self w) = true ∧ fd = _in_fd (self w);
  inv_spooler_ready : forall fd,
    readers (loop w) !! fd = Some H_spooler_read_ready ->
    exists sp, _stderr (self w) = Some sp ∧ sp_fd sp = fd ∧ fd ≠ -1;
  inv_spooler_fd : forall sp,
    _stderr (self w) = Some sp -> sp_fd sp ≠ -1 -> sp_fd sp ≠ _in_fd (self w);
  inv_readers_only : forall fd, readers (loop w) !! fd ≠ Some H_write_ready
}.

(** The write side: [_write_ready] is registered, on [_out_fd], exactly while
    the queue is there. *)
Record WriterInv (w : world) : Prop := {
  inv_writing : forall q,
    _queue (self w) = Some q ->
    writers (loop w) !! _out_fd (self w) = Some H_write_ready;
  inv_write_ready : forall fd h,
    writers (loop w) !! fd = Some h ->
    h = H_write_ready ∧ fd = _out_fd (self w) ∧ _queue (self w) ≠ None
}.

Record StateInv (w : world) : Prop := {
  inv_closing :
    _closing (self w) = true -> _is_reading (self w) = false ∧ _in_fd (self w) = -1;
  inv_eof_received :
    eof_received ∈ trace w -> _in_fd (self w) = -1;
  inv_lost : forall e,
    connection_lost e ∈ trace w ->
    e = None ∧ _closing (self w) = true ∧ _queue (self w) = None
}.

(** Flow control as an automaton over the trace: [Some true] while the
    protocol is paused, [None] once two calls of the same kind met. *)
Definition flow_step (st : option bool) (o : obs) : option bool :=
  match o with
  | pause_writing => match st with Some false => Some true | _ => None end
  | resume_writing => match st with Some true => Some false | _ => None end
  | _ => st
  end.

Definition flow_state (tr : list obs) : option bool := foldl flow_step (Some false) tr.

Definition FlowInv (w : world) : Prop := flow_state (trace w) = Some (has_queue w).

Definition EofInv (w : world) : Prop :=
  count is_eof_received (trace w) = 0%nat ∨
  (count is_eof_received (trace w) = 1%nat ∧ _in_fd (self w) = -1).

(** The half-close is performed at most once, and then write-EOF has been
    requested and no queue is left. *)
Definition HalfCloseInv (w : world) : Prop :=
  count is_half_close (trace w) = 0%nat ∨
  (count is_half_close (trace w) = 1%nat ∧
   _eof (self w) = true ∧ _queue (self w) = None).

(** Loss of the connection as an automaton over the trace: [Some true] once
    [connection_lost] was called, [None] if a callback of the transport
    followed it. *)
Definition lost_step (st : option bool) (o : obs) : option bool :=
  match st with
  | None => None
  | Some false => Some (is_connection_lost o)
  | Some true => if transport_callback o then None else Some true
  end.

Definition lost_state (tr : list obs) : option bool := foldl lost_step (Some false) tr.

Definition LostInv (w : world) : Prop :=
  match lost_state (trace w) with
  | Some true => _closing (self w) = true ∧ _queue (self w) = None
  | Some false => True
  | None => False
  end.

Record Inv (w : world) : Prop := {
  inv_reader : ReaderInv w;
  inv_writer : WriterInv w;
  inv_state : StateInv w;
  inv_flow : FlowInv w;
  inv_eof : EofInv w
}.

(** A call the consumer or the loop may make, short of calling [abort()] on a
    transport that has already reported the loss of its connection. *)
Definition graceful (c : call) (w : world) : Prop :=
  enabled c w ∧ (c = DoAbort -> forall e, connection_lost e ∉ trace w).

(** A property of the world that a computation keeps, however it ends. *)
Definition preserves {A} (I : world -> Prop) (c : M A) : Prop :=
  forall w, I w -> I (c w).2.

(** A subprocess transport on a pseudo-terminal, as its constructor leaves it. *)
Definition initial_pty (w : world) : Prop :=
  exists window kw_stderr os, w = new_SubprocessTransport true window kw_stderr os.

Definition on_pty (w : world) : Prop :=
  exists pid' master,
    sub (self w) = SubprocessTransport (mkPopen pid' None None None) (Some master) ∧
    _stderr (self w) = None.



(** What a transport is: its class, with the attributes set once, and the
    flag for pseudo-terminals. *)
Definition is_a (e : endpoint) (eio : bool) (w : world) : Prop :=
  sub (self w) = e ∧ _eio_is_eof (self w) = eio.


(** ** Runs of calls, and the data of the examples *)

Fixpoint all_allowed (allowed : call -> world -> Prop) (cs : list call) (w : world) : Prop :=
  match cs with
  | [] => True
  | c :: cs' => allowed c w ∧ all_allowed allowed cs' (exec c w)
  end.


(** The file descriptors a spawn without pseudo-terminal is given in the
    examples: pipes 3, 4 and 5 for the child's streams, 9 from [os.dup]. *)
Definition spawn0 : spawned := mkSpawned (7, 8) 100 3 4 5 9.


Definition abc : bytes := [Byte.x61; Byte.x62; Byte.x63].
Definition de : bytes := [Byte.x64; Byte.x65].
Definition ab : bytes := [Byte.x61; Byte.x62].


(** ** The source as written *)

(** A call as the source can make it: [_write_ready] calls
    [os.writev(self._queue)], with one argument, which CPython rejects before
    any I/O.  The other answers of [os_writev] describe the gather write on
    [self._out_fd] that the handler's body is written for; no run of the
    source contains them. *)
Definition as_written (c : call) : Prop :=
  match c with
  | OnWriteReady r => r = WvArity
  | _ => True
  end.

(** A close that waits for the queue: the transport is closing, the queue is
    there, and [connection_lost] has been reported [n] times. *)
Definition Deferred (q : list bytes) (n : nat) (w : world) : Prop :=
  _closing (self w) = true ∧ _queue (self w) = Some q ∧
  count is_connection_lost (trace w) = n.

(** The bytes of the write queue, in order. *)
Definition pending (w : world) : bytes := concat (default [] (_queue (self w))).


(** ** class _Transport: the other methods *)

Definition is_reading : M bool := gets _is_reading.

Definition is_closing : M bool := gets _closing.

Definition get_write_buffer_limits : M (Z * Z) := ret (0, 0).

(** assert high is None or high == 0; assert low is None or low == 0 *)
Definition set_write_buffer_limits (high low : option Z) : M unit :=
  assert_ (match high with None => true | Some h => h =? 0 end);;
  assert_ (match low with None => true | Some l => l =? 0 end).

(** ** class SubprocessTransport: the other methods *)

Definition get_pid : M Z :=
  e ← gets sub;
  match e with
  | SubprocessTransport process _ => ret (pid process)
  | _ => raise AttributeError
  end.

Definition get_returncode : M (option Z) :=
  e ← gets sub;
  match e with
  | SubprocessTransport _ _ => gets _returncode
  | _ => raise AttributeError
  end.

(** ** The child watcher: [SubprocessTransport._get_watcher] *)

(** [SubprocessTransport._watcher] is an attribute of the class, shared by all
    its instances.  What [_get_watcher] asks of the platform: whether asyncio
    has [PidfdChildWatcher], whether [os.pidfd_open] works (it raises OSError
    where the kernel lacks it), and whether a loop is running
    ([asyncio.get_running_loop()] raises RuntimeError otherwise). *)
Inductive watcher := PidfdChildWatcher | SafeChildWatcher.

Record platform := mkPlatform {
  has_PidfdChildWatcher : bool;
  pidfd_open_ok : bool;
  loop_running : bool
}.

Record watcher_class := mkWatcherClass {
  _watcher : option watcher;
  attach_loop_calls : nat
}.

Definition _get_watcher (p : platform) (cls : watcher_class)
    : result watcher * watcher_class :=
  match _watcher cls with
  | Some wt => (Ok wt, cls)
  | None =>
      let wt := if has_PidfdChildWatcher p && pidfd_open_ok p
                then PidfdChildWatcher else SafeChildWatcher in
      if loop_running p
      then (Ok wt, mkWatcherClass (Some wt) (S (attach_loop_calls cls)))
      else (Raise RuntimeError, mkWatcherClass (Some wt) (attach_loop_calls cls))
  end.

(** Calls of [_get_watcher] one after the other, with their results. *)
Fixpoint get_watcher_calls (ps : list platform) (cls : watcher_class)
    : list (result watcher) * watcher_class :=
  match ps with
  | [] => ([], cls)
  | p :: ps' =>
      let '(r, cls') := _get_watcher p cls in
      let '(rs, cls'') := get_watcher_calls ps' cls' in
      (r :: rs, cls'')
  end.

(** ** Further readings of the state and the trace, further invariants *)

(** A queue, when there is one, holds at least one byte. *)
Definition QueueInv (w : world) : Prop :=
  forall q, _queue (self w) = Some q -> 0 < len (concat q).

(** Behind a queue [q]: the queue is still there, grown at the tail, or it
    was discarded by a transport that is closing; and the kernel has been
    given what the trace [tr0] says, no more. *)
Definition Behind (q : list bytes) (tr0 : list obs) (w : world) : Prop :=
  (forall fd, wrote fd (trace w) = wrote fd tr0) ∧
  ((exists more, _queue (self w) = Some (q ++ more)) ∨
   (_queue (self w) = None ∧ _closing (self w) = true)).

(** Flags that are set stay set. *)
Definition Shut (closing eof : bool) (w : world) : Prop :=
  (closing = true -> _closing (self w) = true) ∧ (eof = true -> _eof (self w) = true).

(** The write side as an automaton over the trace: [Some true] once the
    half-close was performed, [None] if a write went to a descriptor other
    than [fd0], or followed the half-close. *)
Definition out_step (fd0 : Z) (st : option bool) (o : obs) : option bool :=
  match st with
  | None => None
  | Some closed =>
      match o with
      | os_wrote fd _ => if closed || negb (fd =? fd0) then None else Some false
      | stdin_closed _ | shutdown_wr _ => Some true
      | _ => Some closed
      end
  end.

Definition out_state (fd0 : Z) (tr : list obs) : option bool :=
  foldl (out_step fd0) (Some false) tr.

Definition OutInv (fd0 : Z) (w : world) : Prop :=
  match out_state fd0 (trace w) with
  | Some true => _eof (self w) = true ∧ _queue (self w) = None
  | Some false => _out_fd (self w) = fd0
  | None => False
  end.

Definition is_process_exited (o : obs) : bool :=
  match o with process_exited => true | _ => false end.

(** The return code is there exactly once [process_exited] was reported. *)
Definition ExitInv (w : world) : Prop :=
  (_returncode (self w) = None ∧ count is_process_exited (trace w) = 0%nat) ∨
  (_returncode (self w) ≠ None ∧ (0 < count is_process_exited (trace w))%nat).

(** What a run of reads adds to a Spooler: the chunks before the first empty
    one, and whether an empty one (end of file) was met. *)
Fixpoint spooled (chunks : list bytes) : list bytes * bool :=
  match chunks with
  | [] => ([], false)
  | [] :: _ => ([], true)
  | chunk :: rest => let '(kept, eof) := spooled rest in (chunk :: kept, eof)
  end.

(** The data a Spooler holds; none without a Spooler. *)
Definition spool (w : world) : list bytes :=
  default [] (sp_contents <$> _stderr (self w)).

(** The Spooler only ever gains data. *)
Definition Spooled (held : list bytes) (w : world) : Prop := held `prefix_of` spool w.

(** The read side as an automaton over the trace: [Some true] once
    [eof_received] was called, [None] if data was delivered after it, or was
    empty or longer than a block, or if [eof_received] was called twice. *)
Definition read_step (st : option bool) (o : obs) : option bool :=
  match st with
  | None => None
  | Some eof =>
      match o with
      | data_received data =>
          if eof || (len data =? 0) || (len data >? BLOCK_SIZE) then None else Some false
      | eof_received => if eof then None else Some true
      | _ => Some eof
      end
  end.

Definition read_state (tr : list obs) : option bool := foldl read_step (Some false) tr.

Definition ReadInv (w : world) : Prop :=
  match read_state (trace w) with
  | Some true => _in_fd (self w) = -1
  | Some false => True
  | None => False
  end.

(** A call made on the protocol, [process_exited] included. *)
Definition is_callback (o : obs) : bool := transport_callback o || is_process_exited o.

(** [connection_made] as an automaton over the trace: [Some true] once it was
    called, [None] if another callback came before it, or if it was called
    twice. *)
Definition made_step (st : option bool) (o : obs) : option bool :=
  match st with
  | None => None
  | Some false =>
      match o with
      | connection_made => Some true
      | _ => if is_callback o then None else Some false
      end
  | Some true =>
      match o with
      | connection_made => None
      | _ => Some true
      end
  end.

Definition made_state (tr : list obs) : option bool := foldl made_step (Some false) tr.

Definition MadeInv (w : world) : Prop := made_state (trace w) = Some true.

(** The Spooler is there or not for good. *)
Definition StderrIs (b : bool) (w : world) : Prop :=
  match _stderr (self w) with Some _ => b = true | None => b = false end.

Definition is_PIPE (arg : option stdio_arg) : bool :=
  match arg with Some PIPE => true | _ => false end.

(** A subprocess on pipes, as its constructor leaves it. *)
Definition on_pipes (kw_stderr : option stdio_arg) (os : spawned) (w : world) : Prop :=
  is_a (SubprocessTransport (Popen_ (Some PIPE) (Some PIPE) kw_stderr os) None) false w ∧
  StderrIs (is_PIPE kw_stderr) w.

Definition is_os_closed (o : obs) : bool :=
  match o with os_closed _ => true | _ => false end.

(** The descriptors the module closed with [os.close], in order. *)
Definition closes (tr : list obs) : list obs := List.filter is_os_closed tr.

(** The only [os.close] after the constructor is that of the Spooler's
    descriptor [fd], made when the Spooler gives it up. *)
Definition CloseInv (ctor : list obs) (fd : Z) (w : world) : Prop :=
  match _stderr (self w) with
  | None => closes (trace w) = ctor
  | Some sp =>
      if sp_fd sp =? -1 then closes (trace w) = ctor ++ [os_closed fd]
      else sp_fd sp = fd ∧ closes (trace w) = ctor
  end.

(** The only file object the transport closes is the stdin pipe of its
    child. *)
Definition StdinInv (e : endpoint) (w : world) : Prop :=
  sub (self w) = e ∧
  forall fd, stdin_closed fd ∈ trace w ->
    match e with
    | SubprocessTransport process _ => p_stdin process = Some fd
    | _ => False
    end.


(** * Proofs *)

(** ** The monad *)

Lemma preserves_bind {A B} (I : world -> Prop) (c : M A) (k : A -> M B) :
  preserves I c -> (forall a, preserves I (k a)) -> preserves I (bind c k).
Proof.
  intros Hc Hk w HI. unfold bind.
  specialize (Hc w HI). destruct (c w) as [[a|e] w']; cbn in *; [by apply Hk | done].
Qed.

Lemma preserves_gets {A B} (I : world -> Prop) (f : transport -> A) (k : A -> M B) :
  (forall w, I w -> I (k (f (self w)) w).2) -> preserves I (bind (gets f) k).
Proof. intros H w HI. by apply H. Qed.

Lemma preserves_ret {A} (I : world -> Prop) (a : A) : preserves I (ret a).
Proof. by intros w. Qed.

(** ** Traces *)

Lemma count_app p tr1 tr2 : count p (tr1 ++ tr2) = (count p tr1 + count p tr2)%nat.
Proof. induction tr1 as [|o tr1 IH]; cbn; [done | rewrite IH; lia]. Qed.

Lemma lost_state_snoc tr o : lost_state (tr ++ [o]) = lost_step (lost_state tr) o.
Proof. unfold lost_state. by rewrite foldl_app. Qed.

Lemma lost_state_true tr :
  lost_state tr = Some true -> exists e, connection_lost e ∈ tr.
Proof.
  induction tr as [|o tr IH] using rev_ind; [done|].
  rewrite lost_state_snoc. intros H.
  destruct (lost_state tr) as [[|]|]; cbn in H; [| |done].
  - destruct IH as [e He]; [done|]. exists e. apply elem_of_app. by left.
  - destruct o; try done. eexists. apply elem_of_app. right. by apply list_elem_of_singleton.
Qed.

(** ** The write queue *)

Lemma len_app (a b : bytes) : len (a ++ b) = len a + len b.
Proof. unfold len. rewrite length_app. lia. Qed.

Lemma len_nonneg (b : bytes) : 0 <= len b.
Proof. unfold len. lia. Qed.

(** The loop of [_write_ready] takes [n_bytes] bytes off the front of the
    queue and leaves the rest in order, a block cut where the count ends. *)
Lemma dequeue_spec q n :
  0 <= n <= len (concat q) ->
  (dequeue q n).1 ≠ LoopPopEmpty ∧
  concat (dequeue q n).2 = bytes_from n (concat q).
Proof.
  revert n. induction q as [|block q IH]; intros n Hn; cbn [dequeue].
  - destruct (Z.eqb_spec n 0) as [->|Hn0]; [done|]. cbn in Hn. unfold len in Hn. cbn in Hn. lia.
  - destruct (Z.eqb_spec n 0) as [->|Hn0]; [done|].
    cbn [concat] in *. rewrite len_app in Hn.
    destruct (Z.gtb_spec (len block) n) as [Hlt|Hge]; cbn [fst snd].
    + split; [done|]. unfold bytes_from, len in *. cbn [concat].
      rewrite drop_app_le by lia. done.
    + destruct (IH (n - len block)) as [IH1 IH2]; [lia|]. split; [done|].
      rewrite IH2. unfold bytes_from, len in *.
      rewrite drop_app_ge by lia. f_equal. lia.
Qed.

(** The [else] suite runs whenever the count is used up, whatever is left in
    the queue. *)
Lemma dequeue_else q n q' :
  dequeue q n = (LoopElse, q') -> 0 <= n <= len (concat q) ->
  concat q = bytes_upto n (concat q) ++ concat q'.
Proof.
  intros H Hn. destruct (dequeue_spec q n Hn) as [_ Hc]. rewrite H in Hc. cbn in Hc.
  rewrite Hc. unfold bytes_upto, bytes_from. by rewrite take_drop.
Qed.

(** ** Shapes of traces *)





Lemma lost_state_count tr b :
  lost_state tr = Some b ->
  count is_connection_lost tr = (if b then 1 else 0)%nat.
Proof.
  revert b. induction tr as [|o tr IH] using rev_ind; intros b H.
  - cbn in H. by injection H as <-.
  - rewrite lost_state_snoc in H. rewrite count_app. cbn [count].
    destruct (lost_state tr) as [[|]|] eqn:E; [| |done]; rewrite (IH _ eq_refl).
    + cbn in H. destruct (transport_callback o) eqn:Ho; [done|]. injection H as <-.
      destruct o; cbn in *; done.
    + cbn in H. injection H as <-. destruct o; done.
Qed.

Lemma lost_state_prefix tr1 tr2 b :
  lost_state (tr1 ++ tr2) = Some b -> exists b1, lost_state tr1 = Some b1.
Proof.
  revert b. induction tr2 as [|o tr2 IH] using rev_ind; intros b.
  - rewrite app_nil_r. eauto.
  - rewrite app_assoc, lost_state_snoc.
    destruct (lost_state (tr1 ++ tr2)) as [b2|] eqn:E; [|done]. intros _. eauto.
Qed.

(** What follows [connection_lost] in a trace the automaton accepts is no
    callback of the transport. *)
Lemma lost_state_terminal pre e post b :
  lost_state (pre ++ connection_lost e :: post) = Some b ->
  Forall (fun o => transport_callback o = false) post.
Proof.
  revert b. induction post as [|o post IH] using rev_ind; intros b H; [done|].
  change (pre ++ connection_lost e :: post ++ [o]) with (pre ++ (connection_lost e :: post) ++ [o]) in H.
  rewrite app_assoc, lost_state_snoc in H.
  destruct (lost_state (pre ++ connection_lost e :: post)) as [b1|] eqn:E; [|done].
  apply Forall_app. split; [by eapply IH|].
  assert (b1 = true) as ->.
  { pose proof (lost_state_count _ _ E) as Hc. rewrite count_app in Hc. cbn in Hc.
    destruct b1; [done|lia]. }
  cbn in H. destruct (transport_callback o) eqn:Ho; [done|].
  constructor; [exact Ho | constructor].
Qed.

(** ** Symbolic execution of the methods *)

Ltac py_unfold :=
  cbv [perform exec
       bind ret raise try_except gets modify on_loop emit assert_
       add_reader remove_reader add_writer remove_writer
       os_read os_write os_writev
       pause_reading resume_reading _close_reader _remove_write_queue
       _create_write_queue abort can_write_eof _write_eof_now write_eof
       _consider_closing _write_ready write close _read_ready
       Spooler_close Spooler__read_ready Spooler_get
       get_stderr _exited
       is_IOError is_BrokenPipeError] in *;
  cbn [set_queue set_in_fd set_out_fd set_closing set_is_reading set_eof
       set_stderr set_returncode
       self loop trace _queue _in_fd _out_fd _closing _is_reading _eof
       _eio_is_eof sub _stderr _returncode readers writers sp_fd sp_contents
       pid p_stdin p_stdout p_stderr
       fst snd negb andb orb default from_option fmap option_fmap option_map] in *.

Ltac py_rewrite :=
  repeat match goal with
         | H : ?x = ?v |- context [?x] =>
             lazymatch x with
             | true => fail | false => fail | None => fail | Some _ => fail
             | (_, _) => fail
             | _ => idtac
             end;
             lazymatch v with
             | true => idtac | false => idtac | None => idtac | Some _ => idtac
             | SubprocessTransport _ _ => idtac | SocketTransport _ => idtac
             | StdioTransport => idtac | (_, _) => idtac
             end;
             rewrite H
         end.

Ltac py_case :=
  match goal with
  | |- context [match ?x with _ => _ end] =>
      lazymatch x with
      | context [match _ with _ => _ end] => fail
      | Z.eqb ?a ?b => destruct (Z.eqb_spec a b)
      | Z.gtb ?a ?b => destruct (Z.gtb_spec a b)
      | _ => destruct x eqn:?
      end
  end.

(** Runs a method on a symbolic world, one goal per path through it. *)
Ltac py_simpl := py_unfold; repeat (progress py_rewrite; py_unfold).

Ltac py := py_simpl; repeat (py_case; try discriminate; py_simpl).

Ltac map_facts :=
  repeat match goal with
         | H : delete _ _ !! _ = Some _ |- _ => apply lookup_delete_Some in H; destruct H
         | H : <[_ := _]> _ !! _ = Some _ |- _ =>
             apply lookup_insert_Some in H; destruct H as [[? ?]|[? ?]]
         | H : ∅ !! _ = Some _ |- _ => by rewrite lookup_empty in H
         end.

Ltac bool_facts :=
  repeat match goal with
         | H : _ && _ = true |- _ => apply andb_true_iff in H; destruct H
         | H : _ && _ = false |- _ => apply andb_false_iff in H; destruct H
         | H : negb _ = true |- _ => apply negb_true_iff in H
         | H : negb _ = false |- _ => apply negb_false_iff in H
         | H : (_ =? _) = true |- _ => apply Z.eqb_eq in H
         | H : (_ =? _) = false |- _ => apply Z.eqb_neq in H
         end.

Ltac elem_facts :=
  repeat match goal with
         | H : _ ∈ _ ++ _ |- _ => apply elem_of_app in H; destruct H
         | H : _ ∈ _ :: _ |- _ => apply elem_of_cons in H; destruct H
         | H : _ ∈ [] |- _ => by apply elem_of_nil in H
         end.

Ltac learn H :=
  let T := type of H in
  lazymatch goal with
  | _ : T |- _ => fail
  | _ => pose proof H
  end.

Ltac finish :=
  repeat match goal with
         | |- _ ∧ _ => split
         | |- ?x = ?x => reflexivity
         | |- exists sp, _ = Some sp ∧ _ => eexists; split; [eassumption || reflexivity|]
         end;
  try assumption; try congruence; try lia; eauto.

Ltac lookups :=
  try (rewrite ?lookup_delete_ne, ?lookup_insert_eq, ?lookup_insert_ne
         by first [congruence | intuition congruence]).

Ltac reader_use Ia Ib Ic Id Ie :=
  repeat match goal with
         | H : readers _ !! _ = Some H_read_ready |- _ =>
             let H' := fresh in pose proof (Ib _ H) as H'; clear H; destruct H'
         | H : readers _ !! _ = Some H_spooler_read_ready |- _ =>
             let H' := fresh in pose proof (Ic _ H) as H'; clear H;
             destruct H' as (? & ? & ? & ?)
         | H : readers _ !! _ = Some H_write_ready |- _ => destruct (Ie _ H)
         end;
  repeat match goal with
         | H : _stderr (self _) = Some _ |- _ => learn (Id _ H)
         | H : _is_reading (self _) = true |- _ =>
             first [learn (proj1 (Ia H)) | learn (proj2 (Ia H))]
         end.

Ltac reader_done :=
  match goal with
  | I : ReaderInv _ |- _ =>
      destruct I as [Ia Ib Ic Id Ie];
      constructor; py_unfold; unfold not; intros; bool_facts; map_facts;
      simplify_eq; try congruence;
      reader_use Ia Ib Ic Id Ie;
      simplify_eq; try congruence;
      lookups; finish; try (exfalso; intuition congruence)
  end.

Ltac writer_done :=
  match goal with
  | I : WriterInv _ |- _ =>
      destruct I as [Ia Ib];
      constructor; py_unfold; unfold not; intros; bool_facts; map_facts;
      simplify_eq; try congruence;
      repeat match goal with
             | H : writers _ !! _ = Some _ |- _ =>
                 let H' := fresh in pose proof (Ib _ _ H) as H'; clear H;
                 destruct H' as (? & ? & ?)
             end;
      repeat match goal with
             | H : _queue (self _) = Some _ |- _ => learn (Ia _ H)
             end;
      simplify_eq; try congruence;
      lookups; finish; try (exfalso; intuition congruence)
  end.

Ltac state_done :=
  match goal with
  | I : StateInv _ |- _ =>
      destruct I as [Ia Ib Ic];
      constructor; py_unfold; unfold not; intros; bool_facts; elem_facts;
      simplify_eq; try congruence;
      repeat match goal with
             | H : eof_received ∈ trace _ |- _ => learn (Ib H)
             | H : connection_lost _ ∈ trace _ |- _ =>
                 first [learn (proj1 (Ic _ H)) | learn (proj1 (proj2 (Ic _ H)))
                       | learn (proj2 (proj2 (Ic _ H)))]
             | H : _closing (self _) = true |- _ =>
                 first [learn (proj1 (Ia H)) | learn (proj2 (Ia H))]
             end;
      simplify_eq; try congruence;
      finish; try (exfalso; intuition congruence)
  end.

Ltac flow_done :=
  match goal with
  | I : FlowInv _ |- _ =>
      unfold FlowInv, flow_state, has_queue in *; py_unfold;
      rewrite ?foldl_app; cbn [foldl]; py_rewrite;
      rewrite ?I; py_rewrite; try reflexivity; try congruence
  end.

Ltac eof_done :=
  unfold EofInv in *; py_unfold;
  rewrite ?count_app; cbn [count is_eof_received];
  first [left; lia | right; split; [lia | first [reflexivity | assumption | congruence]]].

Ltac half_close_done :=
  unfold HalfCloseInv in *; py_unfold;
  rewrite ?count_app; cbn [count is_half_close];
  first [left; lia | right; split; [lia | split; first [reflexivity | assumption | congruence]]].

Ltac lost_done E :=
  unfold LostInv, lost_state; py_unfold;
  rewrite ?foldl_app; cbn [foldl];
  repeat match goal with
         | |- context [foldl lost_step (Some false) (trace ?w)] =>
             change (foldl lost_step (Some false) (trace w)) with (lost_state (trace w))
         end;
  rewrite ?E; cbn [lost_step transport_callback is_connection_lost]; py_unfold;
  try done; try congruence.

Ltac is_a_done :=
  match goal with
  | I : is_a _ _ _ |- _ =>
      unfold is_a in *; py_unfold; destruct I; split; congruence
  end.




Ltac on_pty_done :=
  match goal with
  | I : on_pty _ |- _ =>
      let p := fresh "p" in
      let m := fresh "m" in
      unfold on_pty in *; py_unfold; destruct I as (p & m & ? & ?);
      exists p, m; split; congruence
  end.


Ltac split_all := repeat match goal with |- _ ∧ _ => split end.

(** Proves that a concrete list of calls is enabled, call by call. *)
Ltac enabled_now :=
  cbn [all_allowed];
  repeat match goal with
         | |- _ ∧ _ => split
         | |- True => exact I
         | |- enabled _ _ => cbn [enabled]
         | |- graceful _ _ => unfold graceful
         | |- _ = DoAbort -> _ => discriminate
         | |- DoAbort = DoAbort -> _ =>
             let He := fresh in
             intros _ ? He;
             repeat (apply elem_of_cons in He; destruct He as [He|He]; [discriminate|]);
             by apply elem_of_nil in He
         | |- registered H_read_ready (readers (loop ?w)) =>
             exists (_in_fd (self w)); vm_compute; reflexivity
         | |- registered H_write_ready (writers (loop ?w)) =>
             exists (_out_fd (self w)); vm_compute; reflexivity
         | |- is_subprocess _ => vm_compute; exact I
         | |- _ <= _ => vm_compute; discriminate
         end.


(** [Spooler.get] loops; what each read keeps, the loop keeps. *)
Ltac preserved_by_drain step :=
  let IH := fresh "IH" in
  intros avail; induction avail as [|r rest IH]; cbn [Spooler_drain];
  [apply preserves_ret|];
  apply preserves_gets; intros w I;
  destruct (_stderr (self w)) as [sp|]; [|done];
  destruct (sp_fd sp =? -1); [done|];
  apply preserves_bind; [apply step | by intros _ | done].

Ltac preserved_by_get_stderr drain :=
  unfold exec, perform, get_stderr;
  apply preserves_bind; [|intros; apply preserves_ret|done];
  apply preserves_gets; clear; intros w I; destruct (_stderr (self w)); [|done];
  unfold Spooler_get; apply preserves_bind; [apply drain| |done];
  intros _; by apply preserves_gets.

(** ** Every call keeps the invariants *)

Lemma reader_inv_spooler_read_ready r : preserves ReaderInv (Spooler__read_ready r).
Proof. intros w I. py; reader_done. Qed.

Lemma reader_inv_spooler_drain : forall avail, preserves ReaderInv (Spooler_drain avail).
Proof. preserved_by_drain reader_inv_spooler_read_ready. Qed.

Lemma reader_inv_call c w : ReaderInv w -> ReaderInv (exec c w).
Proof.
  intros I. destruct c.
  7: preserved_by_get_stderr reader_inv_spooler_drain.
  all: py; reader_done.
Qed.

Lemma writer_inv_spooler_read_ready r : preserves WriterInv (Spooler__read_ready r).
Proof. intros w I. py; writer_done. Qed.

Lemma writer_inv_spooler_drain : forall avail, preserves WriterInv (Spooler_drain avail).
Proof. preserved_by_drain writer_inv_spooler_read_ready. Qed.

Lemma writer_inv_call c w : WriterInv w -> WriterInv (exec c w).
Proof.
  intros I. destruct c.
  7: preserved_by_get_stderr writer_inv_spooler_drain.
  all: py; writer_done.
Qed.

Lemma state_inv_spooler_read_ready r : preserves StateInv (Spooler__read_ready r).
Proof. intros w I. py; state_done. Qed.

Lemma state_inv_spooler_drain : forall avail, preserves StateInv (Spooler_drain avail).
Proof. preserved_by_drain state_inv_spooler_read_ready. Qed.

Lemma state_inv_call c w : StateInv w -> StateInv (exec c w).
Proof.
  intros I. destruct c.
  7: preserved_by_get_stderr state_inv_spooler_drain.
  all: py; state_done.
Qed.

Lemma flow_inv_spooler_read_ready r : preserves FlowInv (Spooler__read_ready r).
Proof. intros w I. py; flow_done. Qed.

Lemma flow_inv_spooler_drain : forall avail, preserves FlowInv (Spooler_drain avail).
Proof. preserved_by_drain flow_inv_spooler_read_ready. Qed.

Lemma flow_inv_call c w : FlowInv w -> FlowInv (exec c w).
Proof.
  intros I. destruct c.
  7: preserved_by_get_stderr flow_inv_spooler_drain.
  all: py; flow_done.
Qed.

Lemma eof_inv_spooler_read_ready r : preserves EofInv (Spooler__read_ready r).
Proof. intros w [I|[I1 I2]]; py; eof_done. Qed.

Lemma eof_inv_spooler_drain : forall avail, preserves EofInv (Spooler_drain avail).
Proof. preserved_by_drain eof_inv_spooler_read_ready. Qed.

(** [_read_ready] runs only while registered, that is while [_in_fd] is valid:
    not after an end of file. *)
Lemma eof_inv_call c w :
  ReaderInv w -> enabled c w -> EofInv w -> EofInv (exec c w).
Proof.
  intros IR En I. destruct c.
  7: preserved_by_get_stderr eof_inv_spooler_drain.
  7: { destruct I as [I|[I1 I2]]; [py; eof_done|].
       destruct En as [[fd Hfd] _]. apply (inv_read_ready _ IR) in Hfd.
       destruct Hfd as [Hr _]. destruct (inv_reading _ IR Hr). congruence. }
  all: destruct I as [I|[I1 I2]]; py; eof_done.
Qed.

Lemma lost_inv_spooler_read_ready r : preserves LostInv (Spooler__read_ready r).
Proof.
  intros w I. unfold LostInv in I.
  destruct (lost_state (trace w)) as [[|]|] eqn:E; [| |done]; py; lost_done E.
Qed.

Lemma lost_inv_spooler_drain : forall avail, preserves LostInv (Spooler_drain avail).
Proof. preserved_by_drain lost_inv_spooler_read_ready. Qed.

(** Once the connection is lost the transport is closing, reads nothing and
    has no queue: neither handler is registered, and what the consumer may
    still call reaches no callback. *)
Lemma lost_inv_call c w :
  ReaderInv w -> WriterInv w -> StateInv w -> graceful c w ->
  LostInv w -> LostInv (exec c w).
Proof.
  intros IR IW IS [En Gr] I. destruct c.
  7: preserved_by_get_stderr lost_inv_spooler_drain.
  all: unfold LostInv in I;
    destruct (lost_state (trace w)) as [[|]|] eqn:E; [| |done];
    [destruct I as [Hclosing Hqueue];
     destruct (inv_closing _ IS Hclosing) as [Hreading Hin_fd]
    |clear Gr En IR IW IS; py; lost_done E].
  - py; lost_done E.
  - py; lost_done E.
  - py; lost_done E.
  - py; lost_done E.
  - py; lost_done E.
  - destruct (lost_state_true _ E) as [e He]. by destruct (Gr eq_refl e).
  - destruct En as [[fd Hfd] _]. apply (inv_read_ready _ IR) in Hfd.
    destruct Hfd; congruence.
  - destruct En as [[fd Hfd] _]. apply (inv_write_ready _ IW) in Hfd.
    destruct Hfd as (_ & _ & ?). congruence.
  - py; lost_done E.
  - py; lost_done E.
Qed.

(** ** The invariants hold when the constructor returns *)

Ltac init_unfold :=
  cbv [new_SocketTransport new_StdioTransport new_SubprocessTransport
       _Transport__init__ Spooler__init__ Popen_ Popen_stream fresh] in *.

Ltac init_done :=
  constructor;
  [ constructor | constructor | constructor
  | unfold FlowInv, flow_state, has_queue | unfold EofInv ];
  py_unfold; cbn [foldl flow_step count is_eof_received app Nat.add];
  unfold not; intros; bool_facts; map_facts; elem_facts; simplify_eq;
  try (rewrite ?lookup_insert_eq, ?lookup_insert_ne by congruence);
  finish; try (by left).

Lemma inv_initial w : initial w -> Inv w.
Proof.
  destruct 1 as [sock| |pty window kw os [Hdup1 Hdup2]]; init_unfold.
  3: destruct pty, window as [[rows cols]|], kw as [[| | |fd]|],
       (openpty os) as [master session_fd].
  all: py; init_done.
Qed.

Lemma lost_inv_initial w : initial w -> LostInv w.
Proof.
  destruct 1 as [sock| |pty window kw os _]; init_unfold.
  3: destruct pty, window as [[rows cols]|], kw as [[| | |fd]|],
       (openpty os) as [master session_fd].
  all: py; unfold LostInv, lost_state; py_unfold; by cbn.
Qed.

(** ** Reachable worlds *)

Lemma reach_mono (init : world -> Prop) (P Q : call -> world -> Prop) w :
  (forall c w, P c w -> Q c w) -> reach init P w -> reach init Q w.
Proof.
  intros HPQ. induction 1 as [w Hw|c w _ IH Hc]; [by apply reach_initial|].
  apply reach_call; [done | by apply HPQ].
Qed.

Lemma inv_call c w : enabled c w -> Inv w -> Inv (exec c w).
Proof.
  intros En [IR IW IS IF IE]. constructor.
  - by apply reader_inv_call.
  - by apply writer_inv_call.
  - by apply state_inv_call.
  - by apply flow_inv_call.
  - by apply eof_inv_call.
Qed.

Lemma inv_reachable w : reachable w -> Inv w.
Proof.
  induction 1 as [w Hw|c w _ IH Hc]; [by apply inv_initial | by apply inv_call].
Qed.

Lemma graceful_reachable w : reach initial graceful w -> reachable w.
Proof. apply reach_mono. by intros c w' [? _]. Qed.

Lemma lost_inv_reach w : reach initial graceful w -> LostInv w.
Proof.
  induction 1 as [w Hw|c w Hr IH Hc]; [by apply lost_inv_initial|].
  destruct (inv_reachable w (graceful_reachable w Hr)) as [IR IW IS _ _].
  by apply lost_inv_call.
Qed.

Lemma reach_run init allowed cs w :
  reach init allowed w -> all_allowed allowed cs w -> reach init allowed (run cs w).
Proof.
  revert w. induction cs as [|c cs IH]; intros w Hw Hcs; [done|].
  destruct Hcs as [Hc Hcs]. apply IH; [by apply reach_call | done].
Qed.

Lemma reachable_run cs w : reachable w -> all_allowed enabled cs w -> reachable (run cs w).
Proof. apply reach_run. Qed.

Lemma wrote_app fd tr1 tr2 : wrote fd (tr1 ++ tr2) = wrote fd tr1 ++ wrote fd tr2.
Proof.
  induction tr1 as [|o tr1 IH]; [done|].
  destruct o; cbn [wrote app]; try done.
  destruct (_ =? _); [by rewrite IH, app_assoc | done].
Qed.

(** ** The half-close and the queue *)

Lemma half_close_inv_spooler_read_ready r : preserves HalfCloseInv (Spooler__read_ready r).
Proof. intros w [I|(I1 & I2 & I3)]; py; half_close_done. Qed.

Lemma half_close_inv_spooler_drain : forall avail, preserves HalfCloseInv (Spooler_drain avail).
Proof. preserved_by_drain half_close_inv_spooler_read_ready. Qed.

Lemma half_close_inv_call c w : HalfCloseInv w -> HalfCloseInv (exec c w).
Proof.
  intros I. destruct c.
  7: preserved_by_get_stderr half_close_inv_spooler_drain.
  all: destruct I as [I|(I1 & I2 & I3)]; py; half_close_done.
Qed.

Lemma half_close_inv_initial w : initial w -> HalfCloseInv w.
Proof.
  destruct 1 as [sock| |pty window kw os _]; init_unfold.
  3: destruct pty, window as [[rows cols]|], kw as [[| | |fd]|],
       (openpty os) as [master session_fd].
  all: py; left; reflexivity.
Qed.

Lemma half_close_at_most_once w :
  reachable w -> (count is_half_close (trace w) <= 1)%nat.
Proof.
  intros Hw. assert (HalfCloseInv w) as [I|[I _]]; [|lia..].
  induction Hw as [w Hw|c w _ IH _];
    [by apply half_close_inv_initial | by apply half_close_inv_call].
Qed.

(** [write_eof()] with a queue outstanding performs no half-close. *)
Lemma write_eof_deferred w q :
  _eof (self w) = false -> _queue (self w) = Some q ->
  write_eof w = (Ok tt, mkWorld (set_eof true (self w)) (loop w) (trace w)).
Proof. intros He Hq. by py. Qed.

(** Whenever the loop of [_write_ready] ends through its condition, the queue
    is removed with whatever blocks it still holds: the kernel has been given
    the first [n] bytes of the queue and nothing more. *)
Lemma write_ready_else_removes_queue w q n q' :
  _queue (self w) = Some q -> dequeue q n = (LoopElse, q') ->
  _queue (self (exec (OnWriteReady (WvAccepted n)) w)) = None ∧
  forall fd,
    wrote fd (trace (exec (OnWriteReady (WvAccepted n)) w)) =
    wrote fd (trace w ++ [os_wrote (_out_fd (self w)) (bytes_upto n (concat q))]).
Proof.
  intros Hq Hd. split.
  - py; reflexivity.
  - intros fd. py; rewrite ?wrote_app; cbn [wrote]; by rewrite ?app_nil_r.
Qed.

(** ** Abort, end of file, flow control *)

(** [abort()] never raises; it leaves the transport closing, not reading and
    without a queue, writes nothing to the kernel, and ends in
    [connection_lost(None)]. *)
Lemma abort_spec w :
  (abort w).1 = Ok tt ∧
  _closing (self (abort w).2) = true ∧
  _is_reading (self (abort w).2) = false ∧
  _in_fd (self (abort w).2) = -1 ∧
  _queue (self (abort w).2) = None ∧
  readers (loop (abort w).2) =
    (if _is_reading (self w) then delete (_in_fd (self w)) (readers (loop w))
     else readers (loop w)) ∧
  writers (loop (abort w).2) =
    (if has_queue w then delete (_out_fd (self w)) (writers (loop w))
     else writers (loop w)) ∧
  trace (abort w).2 =
    trace w ++ (if has_queue w then [resume_writing] else []) ++ [connection_lost None].
Proof.
  unfold has_queue. py; repeat split; try reflexivity; by rewrite <-app_assoc.
Qed.

Lemma write_broken_pipe_is_abort w data :
  _closing (self w) = false -> _eof (self w) = false -> _queue (self w) = None ->
  write data (WrFail EPIPE) w = abort w.
Proof. intros Hc He Hq. py; reflexivity. Qed.

(** [_read_ready] runs on an open transport only: once closing, the transport
    has unregistered it. *)
Lemma read_ready_enabled_open w r keep_open :
  reachable w -> enabled (OnReadReady r keep_open) w ->
  _is_reading (self w) = true ∧ _in_fd (self w) ≠ -1 ∧ _closing (self w) = false ∧
  count is_eof_received (trace w) = 0%nat.
Proof.
  intros Hw [[fd Hfd] _].
  destruct (inv_reachable w Hw) as [IR _ IS _ IE].
  destruct (inv_read_ready _ IR _ Hfd) as [Hr _].
  destruct (inv_reading _ IR Hr) as [_ Hin].
  repeat split; try done.
  - destruct (_closing (self w)) eqn:Hc; [|done].
    destruct (inv_closing _ IS Hc). congruence.
  - by destruct IE as [?|[_ ?]].
Qed.

Lemma eof_received_at_most_once w :
  reachable w -> (count is_eof_received (trace w) <= 1)%nat.
Proof.
  intros Hw. destruct (inv_reachable w Hw) as [_ _ _ _ [IE|[IE _]]]; lia.
Qed.

(** With the protocol answering False, the handler is the handler with the
    answer True followed by [close()]. *)
Lemma read_ready_eof_then_close w :
  exec (OnReadReady (RdData []) false) w =
  exec DoClose (exec (OnReadReady (RdData []) true) w).
Proof. py; reflexivity. Qed.

(** No call changes what a transport is. *)
Lemma is_a_spooler_read_ready e eio r : preserves (is_a e eio) (Spooler__read_ready r).
Proof. intros w I. py; is_a_done. Qed.

Lemma is_a_spooler_drain e eio : forall avail, preserves (is_a e eio) (Spooler_drain avail).
Proof. preserved_by_drain (is_a_spooler_read_ready e eio). Qed.

Lemma is_a_call e eio c w : is_a e eio w -> is_a e eio (exec c w).
Proof.
  intros I. destruct c.
  7: preserved_by_get_stderr (is_a_spooler_drain e eio).
  all: py; is_a_done.
Qed.





(** ** The subprocess transport on a pseudo-terminal *)

Lemma on_pty_initial w : initial_pty w -> on_pty w ∧ _eio_is_eof (self w) = true ∧ ReaderInv w.
Proof.
  intros (window & kw & os & ->). init_unfold.
  destruct window as [[rows cols]|], (openpty os) as [master session_fd]; py.
  all: split; [by eexists _, _|split; [done|]].
  all: constructor; py_unfold; unfold not; intros; bool_facts; map_facts; simplify_eq;
    try (rewrite ?lookup_insert_eq, ?lookup_insert_ne by congruence); finish.
Qed.

Lemma on_pty_spooler_read_ready r : preserves on_pty (Spooler__read_ready r).
Proof.
  intros w I. py; try on_pty_done.
  all: destruct I as (? & ? & _ & I2); py_unfold; congruence.
Qed.

Lemma on_pty_spooler_drain : forall avail, preserves on_pty (Spooler_drain avail).
Proof. preserved_by_drain on_pty_spooler_read_ready. Qed.

Lemma on_pty_call c w : on_pty w -> on_pty (exec c w).
Proof.
  intros I. destruct c.
  7: preserved_by_get_stderr on_pty_spooler_drain.
  all: py; try on_pty_done.
  all: destruct I as (? & ? & I1 & I2); py_unfold; congruence.
Qed.

Lemma on_pty_reach w :
  reach initial_pty enabled w -> on_pty w ∧ _eio_is_eof (self w) = true ∧ ReaderInv w.
Proof.
  induction 1 as [w Hw|c w _ (IH1 & IH2 & IH3) Hc]; [by apply on_pty_initial|].
  split; [by apply on_pty_call|split; [|by apply reader_inv_call]].
  by destruct (is_a_call (sub (self w)) true c w).
Qed.

(** ** The close that waits for the queue *)

Ltac deferred_done :=
  match goal with
  | I : Deferred _ _ _ |- _ =>
      unfold Deferred in *; py_unfold; destruct I as (? & ? & ?);
      rewrite ?count_app; cbn [count is_connection_lost];
      split_all; first [assumption | congruence | lia]
  end.

Lemma deferred_spooler_read_ready q n r : preserves (Deferred q n) (Spooler__read_ready r).
Proof. intros w I. py; deferred_done. Qed.

Lemma deferred_spooler_drain q n : forall avail, preserves (Deferred q n) (Spooler_drain avail).
Proof. preserved_by_drain (deferred_spooler_read_ready q n). Qed.

(** Short of [abort()], no call as the source can make it ends the wait. *)
Lemma deferred_call q n c w :
  as_written c -> c ≠ DoAbort -> Deferred q n w -> Deferred q n (exec c w).
Proof.
  intros Hc Ha I. destruct c; try done.
  6: preserved_by_get_stderr (deferred_spooler_drain q n).
  7: { cbn in Hc. subst r. destruct I as (I1 & I2 & I3). unfold Deferred. by py. }
  all: destruct I as (I1 & I2 & I3); unfold Deferred; py;
    rewrite ?count_app; cbn [count is_connection_lost];
    split_all; first [assumption | congruence | lia].
Qed.

Lemma deferred_run q n cs w :
  Forall (fun c => as_written c ∧ c ≠ DoAbort) cs ->
  Deferred q n w -> Deferred q n (run cs w).
Proof.
  revert w. induction cs as [|c cs IH]; intros w Hcs I; [done|].
  apply Forall_cons in Hcs as [[Hc Ha] Hcs]. apply IH; [done|]. by apply deferred_call.
Qed.

(** [close()] on an open transport with a queue defers. *)
Lemma close_defers w q :
  _closing (self w) = false -> _queue (self w) = Some q ->
  Deferred q (count is_connection_lost (trace w)) (exec DoClose w).
Proof. intros Hc Hq. unfold Deferred. py; done. Qed.

(** [_write_ready] as written: TypeError, and nothing changes. *)
Lemma write_ready_as_written w q :
  _queue (self w) = Some q -> _write_ready WvArity w = (Raise TypeError, w).
Proof. intros Hq. by py. Qed.

(** ** What holds of the loss of the connection and of the end of file *)

Lemma bytes_upto_from n (b : bytes) : bytes_upto n b ++ bytes_from n b = b.
Proof. apply take_drop. Qed.

Lemma bytes_upto_all (b : bytes) : bytes_upto (len b) b = b.
Proof. unfold bytes_upto, len. rewrite Nat2Z.id. apply firstn_all. Qed.

Lemma wrote_one fd data : wrote fd [os_wrote fd data] = data.
Proof. cbn [wrote]. by rewrite Z.eqb_refl, app_nil_r. Qed.

(** A [write()] that the kernel answers with a count returns normally, keeps
    the descriptor, and neither loses nor invents a byte. *)
Lemma write_keeps_bytes w data n :
  _closing (self w) = false -> _eof (self w) = false -> 0 <= n <= len data ->
  (write data (WrAccepted n) w).1 = Ok tt ∧
  _out_fd (self (exec (DoWrite data (WrAccepted n)) w)) = _out_fd (self w) ∧
  wrote (_out_fd (self w)) (trace (exec (DoWrite data (WrAccepted n)) w)) ++
    pending (exec (DoWrite data (WrAccepted n)) w) =
  (wrote (_out_fd (self w)) (trace w) ++ pending w) ++ data.
Proof.
  intros Hc He Hn. unfold pending.
  py; split_all; try reflexivity; rewrite ?wrote_app, ?wrote_one, ?app_nil_r;
    cbn [id concat]; rewrite ?app_nil_r; bool_facts.
  - by rewrite concat_app, app_assoc; cbn [concat]; rewrite app_nil_r.
  - by rewrite <-app_assoc, bytes_upto_from.
  - by subst; rewrite bytes_upto_all.
Qed.

(** As long as [abort()] is not called on a transport that has already
    reported the loss, [connection_lost] is reported at most once, with None,
    and no callback of the transport follows it.  ([process_exited] may: it
    belongs to the child watcher.) *)
Lemma connection_lost_is_terminal w :
  reach initial graceful w ->
  (count is_connection_lost (trace w) <= 1)%nat ∧
  (forall e, connection_lost e ∈ trace w -> e = None) ∧
  (forall pre e post,
     trace w = pre ++ connection_lost e :: post ->
     Forall (fun o => transport_callback o = false) post).
Proof.
  intros Hw. pose proof (lost_inv_reach w Hw) as HL.
  pose proof (inv_reachable w (graceful_reachable w Hw)) as [_ _ IS _ _].
  unfold LostInv in HL.
  destruct (lost_state (trace w)) as [b|] eqn:E; [|done].
  split; [|split].
  - rewrite (lost_state_count _ _ E). destruct b; lia.
  - intros e He. by destruct (inv_lost _ IS e He).
  - intros pre e post Htr. rewrite Htr in E. by eapply lost_state_terminal.
Qed.

(** A zero-length read, on a reachable transport whose [_read_ready] is
    registered.  The handler returns normally; reading has stopped, [_in_fd]
    is -1 and [_read_ready] is registered no more; [eof_received] had not been
    called before and has now been called once, and no reachable transport has
    more than one call of it in its trace.  With the answer True nothing else
    happens: the transport is not closing, the write side is as it was, and
    if write-EOF was not requested a [write()] goes through as on any open
    transport.  With the answer False the handler goes on as [close()] does:
    the transport is closing, and [connection_lost(None)] follows at once when
    no queue is outstanding, the queue being kept for the write-ready handler
    otherwise. *)
Lemma read_ready_end_of_file w keep_open :
  reachable w -> enabled (OnReadReady (RdData []) keep_open) w ->
  let w' := exec (OnReadReady (RdData []) keep_open) w in
  (_read_ready (RdData []) keep_open w).1 = Ok tt ∧
  _is_reading (self w') = false ∧
  _in_fd (self w') = -1 ∧
  ¬ registered H_read_ready (readers (loop w')) ∧
  count is_eof_received (trace w) = 0%nat ∧
  count is_eof_received (trace w') = 1%nat ∧
  (forall w'', reachable w'' -> (count is_eof_received (trace w'') <= 1)%nat) ∧
  (keep_open = true ->
     trace w' = trace w ++ [eof_received] ∧
     _closing (self w') = false ∧
     _eof (self w') = _eof (self w) ∧
     _queue (self w') = _queue (self w) ∧
     _out_fd (self w') = _out_fd (self w) ∧
     (_eof (self w) = false ->
      forall data n, 0 <= n <= len data ->
        (write data (WrAccepted n) w').1 = Ok tt ∧
        _out_fd (self (exec (DoWrite data (WrAccepted n)) w')) = _out_fd (self w') ∧
        wrote (_out_fd (self w')) (trace (exec (DoWrite data (WrAccepted n)) w')) ++
          pending (exec (DoWrite data (WrAccepted n)) w') =
        (wrote (_out_fd (self w')) (trace w') ++ pending w') ++ data)) ∧
  (keep_open = false ->
     w' = exec DoClose (exec (OnReadReady (RdData []) true) w) ∧
     _closing (self w') = true ∧
     match _queue (self w) with
     | None => trace w' = trace w ++ [eof_received; connection_lost None]
     | Some q => trace w' = trace w ++ [eof_received] ∧ _queue (self w') = Some q
     end).
Proof.
  intros Hw En w'.
  destruct (read_ready_enabled_open w _ _ Hw En) as (Hr & Hin & Hc & Hn).
  assert (reachable w') as Hw' by (by apply reach_call).
  destruct (inv_reachable w' Hw') as [IR' _ _ _ _].
  assert (_is_reading (self w') = false ∧ _in_fd (self w') = -1) as [Hr' Hin'].
  { subst w'. clear -Hr Hc. destruct keep_open; py; done. }
  split; [clear -Hr Hc; destruct keep_open; by py|].
  split; [done|]. split; [done|].
  split. { intros [fd Hfd]. destruct (inv_read_ready _ IR' _ Hfd). congruence. }
  split; [done|].
  split.
  { subst w'. clear -Hr Hc Hn. destruct keep_open; py;
      rewrite ?count_app, Hn; reflexivity. }
  split; [apply eof_received_at_most_once|].
  split.
  - intros ->. subst w'. clear -Hr Hc.
    assert (_closing (self (exec (OnReadReady (RdData []) true) w)) = false) as Hc'
      by (by py).
    assert (_eof (self (exec (OnReadReady (RdData []) true) w)) = _eof (self w)) as He'
      by (by py).
    split_all; try (by py).
    intros He data n Hn. apply write_keeps_bytes; [done|congruence|done].
  - intros ->. split; [apply read_ready_eof_then_close|].
    subst w'. clear -Hr Hc. py; repeat split; try done; by rewrite <-?app_assoc.
Qed.

(** * The claims *)

(** C1: an evaluation.  Two chunks are written to a socket; the kernel takes
    one byte of the first, so "bc" and then "de" are queued.  When the gather
    write takes exactly the two bytes of the first block, the loop of
    [_write_ready] ends through its condition and the [else] suite removes the
    queue: "de" never reaches the kernel, and the protocol is told to resume.
    With the call as it stands, [os.writev(self._queue)], the handler raises
    [TypeError] and changes nothing: the queue is never flushed. *)
Theorem write_ready_drops_block_at_boundary :
  let w1 := run [DoWrite abc (WrAccepted 1); DoWrite de (WrAccepted 2)]
                (new_SocketTransport 5) in
  let w2 := exec (OnWriteReady (WvAccepted 2)) w1 in
  reachable w2 ∧
  _queue (self w1) = Some [[Byte.x62; Byte.x63]; de] ∧
  wrote 5 (trace w2) = abc ∧
  wrote 5 (trace w2) ≠ abc ++ de ∧
  _queue (self w2) = None ∧
  writers (loop w2) = ∅ ∧
  flow_calls (trace w2) = [pause_writing; resume_writing] ∧
  _write_ready WvArity w1 = (Raise TypeError, w1).
Proof.
  cbv zeta. split.
  { apply reach_call; [|enabled_now].
    apply reachable_run; [apply reach_initial; constructor | enabled_now]. }
  split_all; try (vm_compute; reflexivity). vm_compute. discriminate.
Qed.


(** C3: [write()] on an open transport with no queue, when [os.write] raises
    BrokenPipeError, does what [abort()] does and returns normally: the
    transport is closing, reading has stopped and [_in_fd] is -1, there is no
    queue, the trace grows by [connection_lost(None)] alone, so nothing was
    written and nothing else reported. *)
Theorem write_broken_pipe_aborts w data :
  _closing (self w) = false -> _eof (self w) = false -> _queue (self w) = None ->
  let w' := (write data (WrFail EPIPE) w).2 in
  write data (WrFail EPIPE) w = abort w ∧
  (write data (WrFail EPIPE) w).1 = Ok tt ∧
  _closing (self w') = true ∧
  _is_reading (self w') = false ∧
  _in_fd (self w') = -1 ∧
  _queue (self w') = None ∧
  readers (loop w') =
    (if _is_reading (self w) then delete (_in_fd (self w)) (readers (loop w))
     else readers (loop w)) ∧
  writers (loop w') = writers (loop w) ∧
  trace w' = trace w ++ [connection_lost None] ∧
  (forall fd, wrote fd (trace w') = wrote fd (trace w)).
Proof.
  intros Hc He Hq w'.
  pose proof (write_broken_pipe_is_abort w data Hc He Hq) as Heq.
  subst w'. rewrite Heq.
  destruct (abort_spec w) as (H1 & H2 & H3 & H4 & H5 & H6 & H7 & H8).
  unfold has_queue in *. rewrite Hq in *. cbn [app] in H8.
  repeat split; try done.
  intros fd. rewrite H8, wrote_app. cbn. by rewrite app_nil_r.
Qed.

Lemma write_broken_pipe_aborts_witness :
  let w := new_StdioTransport in
  let w' := (write abc (WrFail EPIPE) w).2 in
  (write abc (WrFail EPIPE) w).1 = Ok tt ∧
  _is_reading (self w') = false ∧
  trace w' = [connection_made; connection_lost None].
Proof.
  cbv zeta.
  pose proof (write_broken_pipe_aborts new_StdioTransport abc eq_refl eq_refl eq_refl) as H.
  cbv zeta in H. destruct H as (_ & H1 & _ & H2 & _ & _ & _ & _ & H3 & _).
  split; [exact H1 | split; [exact H2 | exact H3]].
Defined.

(** C4: the claim fails on the code, in both directions.  [abort()] has no guard: called
    again, or after [close()] has aborted, it reports the loss again.  And a
    [close()] that finds a queue leaves [connection_lost] to [_write_ready] (as
    its comment says), which as written raises TypeError at
    [os.writev(self._queue)] and changes nothing: the transport stays closing
    with its queue, and whatever is called on it short of [abort()],
    [connection_lost] is never reported. *)
Theorem connection_lost_twice_or_never :
  (forall w0,
     count is_connection_lost (trace (run [DoAbort; DoAbort] w0)) =
     S (S (count is_connection_lost (trace w0)))) ∧
  reach initial graceful (run [DoClose] new_StdioTransport) ∧
  count is_connection_lost (trace (run [DoClose; DoAbort] new_StdioTransport)) = 2%nat ∧
  reach initial graceful (run [DoWrite abc (WrAccepted 1); DoClose] (new_SocketTransport 5)) ∧
  _closing (self (run [DoWrite abc (WrAccepted 1); DoClose] (new_SocketTransport 5))) = true ∧
  _write_ready WvArity (run [DoWrite abc (WrAccepted 1); DoClose] (new_SocketTransport 5)) =
    (Raise TypeError, run [DoWrite abc (WrAccepted 1); DoClose] (new_SocketTransport 5)) ∧
  (forall cs,
     Forall (fun c => as_written c ∧ c ≠ DoAbort) cs ->
     _closing (self (run cs (run [DoWrite abc (WrAccepted 1); DoClose]
                                 (new_SocketTransport 5)))) = true ∧
     _queue (self (run cs (run [DoWrite abc (WrAccepted 1); DoClose]
                               (new_SocketTransport 5)))) = Some [bytes_from 1 abc] ∧
     count is_connection_lost
       (trace (run cs (run [DoWrite abc (WrAccepted 1); DoClose]
                           (new_SocketTransport 5)))) = 0%nat).
Proof.
  split_all.
  - intros w0. cbn [run foldl]. unfold exec, perform.
    destruct (abort_spec (abort w0).2) as (_ & _ & _ & _ & _ & _ & _ & ->).
    destruct (abort_spec w0) as (_ & _ & _ & _ & Hq & _ & _ & ->).
    unfold has_queue. rewrite Hq, !count_app. destruct (_queue (self w0)); cbn; lia.
  - apply reach_run; [apply reach_initial; constructor | enabled_now].
  - vm_compute. reflexivity.
  - apply reach_run; [apply reach_initial; constructor | enabled_now].
  - vm_compute. reflexivity.
  - by apply (write_ready_as_written _ [bytes_from 1 abc]).
  - intros cs Hcs.
    apply (deferred_run [bytes_from 1 abc] 0 cs); [done|].
    apply (close_defers (exec (DoWrite abc (WrAccepted 1)) (new_SocketTransport 5))
                        [bytes_from 1 abc]); reflexivity.
Qed.

(** C5, as stated, fails: after [pause_reading()] the transport is not
    reading and its descriptor is not registered, yet [_in_fd] is still the
    valid descriptor, kept for [resume_reading()]. *)
Lemma paused_transport_keeps_in_fd :
  let w := run [DoPauseReading] new_StdioTransport in
  reachable w ∧
  _is_reading (self w) = false ∧
  readers (loop w) !! _in_fd (self w) = None ∧
  _in_fd (self w) ≠ -1.
Proof.
  cbv zeta. split; [|split_all; vm_compute; done].
  apply reachable_run; [apply reach_initial; constructor | enabled_now].
Qed.

(** C5, amended: in every reachable state the transport is reading exactly
    when [_in_fd] is registered with the loop (and exactly when [_read_ready]
    is registered at all); a reading transport has a valid [_in_fd], and a
    transport whose [_in_fd] is -1 is not reading. *)
Theorem reading_iff_registered w :
  reachable w ->
  (_is_reading (self w) = true <-> is_Some (readers (loop w) !! _in_fd (self w))) ∧
  (_is_reading (self w) = true <-> registered H_read_ready (readers (loop w))) ∧
  (_is_reading (self w) = true -> _in_fd (self w) ≠ -1) ∧
  (_in_fd (self w) = -1 -> _is_reading (self w) = false).
Proof.
  intros Hw. destruct (inv_reachable w Hw) as [[Ia Ib Ic Id Ie] _ _ _ _].
  split; [|split; [|split]].
  - split.
    + intros Hr. destruct (Ia Hr) as [-> _]. by eexists.
    + intros [h Hh]. destruct h.
      * by destruct (Ib _ Hh).
      * by destruct (Ie _ Hh).
      * destruct (Ic _ Hh) as (sp & Hsp & Hfd & Hne).
        destruct (Id sp Hsp); congruence.
  - split.
    + intros Hr. destruct (Ia Hr) as [Hreg _]. by eexists.
    + intros [fd Hfd]. by destruct (Ib _ Hfd).
  - intros Hr. by destruct (Ia Hr).
  - intros Hfd. destruct (_is_reading (self w)) eqn:Hr; [|done].
    by destruct (Ia eq_refl).
Qed.

Lemma reading_iff_registered_witness :
  let w := run [DoPauseReading; DoResumeReading; OnReadReady (RdData abc) true;
                OnReadReady (RdData []) true; DoResumeReading] (new_SocketTransport 5) in
  (_is_reading (self w) = true <-> is_Some (readers (loop w) !! _in_fd (self w))) ∧
  (_in_fd (self w) = -1 -> _is_reading (self w) = false).
Proof.
  cbv zeta.
  refine (let H := reading_iff_registered _ _ in conj (proj1 H) (proj2 (proj2 (proj2 H)))).
  apply reachable_run; [apply reach_initial; constructor | enabled_now].
Defined.

(** C6, as stated, fails: with [close()] requested and the queue not yet
    drained the transport is closing, and [write_eof()] returns normally,
    leaving the half-close for later. *)
Lemma write_eof_while_closing_succeeds :
  let w := run [DoWrite ab (WrAccepted 1); DoClose] (new_SocketTransport 5) in
  reachable w ∧
  _closing (self w) = true ∧ _eof (self w) = false ∧
  (write_eof w).1 = Ok tt ∧
  _eof (self (write_eof w).2) = true.
Proof.
  cbv zeta. split; [|split_all; vm_compute; done].
  apply reachable_run; [apply reach_initial; constructor | enabled_now].
Qed.

(** C6, amended: [write_eof()] fails its assertion exactly when write-EOF
    has already been requested, and then changes nothing.  [_closing] is not
    looked at: whenever write-EOF has not been requested yet, the call marks it
    requested; with a queue outstanding it then returns normally, and with no
    queue it goes on as the half-close of the endpoint does. *)
Theorem write_eof_asserts_eof_only w :
  ((write_eof w).1 = Raise AssertionError <-> _eof (self w) = true) ∧
  (_eof (self w) = true -> write_eof w = (Raise AssertionError, w)) ∧
  (_eof (self w) = false -> _eof (self (write_eof w).2) = true) ∧
  (_eof (self w) = false -> _queue (self w) ≠ None ->
   write_eof w =
     (Ok tt, mkWorld (set_eof true (self w)) (loop w) (trace w))) ∧
  (_eof (self w) = false -> _queue (self w) = None ->
   write_eof w =
     _write_eof_now (mkWorld (set_eof true (self w)) (loop w) (trace w))).
Proof.
  split; [split|split; [|split; [|split]]].
  - destruct (_eof (self w)) eqn:E; [done|]. py; cbn; congruence.
  - intros E. by py.
  - intros E. by py.
  - intros E. by py.
  - intros E Hq. destruct (_queue (self w)) eqn:Eq; [|done]. by py.
  - intros E Hq. by py.
Qed.

Lemma write_eof_asserts_eof_only_witness :
  let w := run [DoWriteEof] (new_SocketTransport 5) in
  write_eof w = (Raise AssertionError, w).
Proof.
  cbv zeta.
  exact (proj1 (proj2 (write_eof_asserts_eof_only
                         (run [DoWriteEof] (new_SocketTransport 5)))) eq_refl).
Defined.

(** C7: the claim fails on the code where the end of file meets a queue.  The handler
    does what the claim says of the read side (reading stopped, [_in_fd]
    invalid, [eof_received] called once) and, on the answer False, runs
    [close()]; but [close()] with a queue outstanding leaves
    [connection_lost] to [_write_ready], which as written raises TypeError at
    [os.writev(self._queue)]: the transport stays closing with its queue, and
    [connection_lost] does not follow, whatever is called short of
    [abort()]. *)
Theorem read_ready_eof_close_never_reports_loss :
  reachable (run [DoWrite abc (WrAccepted 1)] (new_SocketTransport 5)) ∧
  enabled (OnReadReady (RdData []) false)
          (run [DoWrite abc (WrAccepted 1)] (new_SocketTransport 5)) ∧
  _read_ready (RdData []) false (run [DoWrite abc (WrAccepted 1)] (new_SocketTransport 5)) =
    (Ok tt,
     run [DoWrite abc (WrAccepted 1); OnReadReady (RdData []) false] (new_SocketTransport 5)) ∧
  trace (run [DoWrite abc (WrAccepted 1); OnReadReady (RdData []) false]
             (new_SocketTransport 5)) =
    [connection_made; os_wrote 5 [Byte.x61]; pause_writing; eof_received] ∧
  _is_reading (self (run [DoWrite abc (WrAccepted 1); OnReadReady (RdData []) false]
                         (new_SocketTransport 5))) = false ∧
  _in_fd (self (run [DoWrite abc (WrAccepted 1); OnReadReady (RdData []) false]
                    (new_SocketTransport 5))) = -1 ∧
  _write_ready WvArity
    (run [DoWrite abc (WrAccepted 1); OnReadReady (RdData []) false] (new_SocketTransport 5)) =
    (Raise TypeError,
     run [DoWrite abc (WrAccepted 1); OnReadReady (RdData []) false] (new_SocketTransport 5)) ∧
  (forall cs,
     Forall (fun c => as_written c ∧ c ≠ DoAbort) cs ->
     _closing (self (run cs (run [DoWrite abc (WrAccepted 1); OnReadReady (RdData []) false]
                                 (new_SocketTransport 5)))) = true ∧
     _queue (self (run cs (run [DoWrite abc (WrAccepted 1); OnReadReady (RdData []) false]
                               (new_SocketTransport 5)))) = Some [bytes_from 1 abc] ∧
     count is_connection_lost
       (trace (run cs (run [DoWrite abc (WrAccepted 1); OnReadReady (RdData []) false]
                           (new_SocketTransport 5)))) = 0%nat).
Proof.
  split_all.
  - apply reachable_run; [apply reach_initial; constructor | enabled_now].
  - enabled_now.
  - vm_compute. reflexivity.
  - vm_compute. reflexivity.
  - vm_compute. reflexivity.
  - vm_compute. reflexivity.
  - by apply (write_ready_as_written _ [bytes_from 1 abc]).
  - intros cs Hcs.
    apply (deferred_run [bytes_from 1 abc] 0 cs); [done|].
    unfold Deferred. split_all; vm_compute; reflexivity.
Qed.

(** C8: when [os.read] raises.  A transport flagged [_eio_is_eof] does
    exactly what it does on a zero-length read: the handler returns normally,
    reading has stopped, [_in_fd] is -1 and [eof_received] has been called
    (followed by what [close()] does, on the answer False); on a reachable
    transport that is its only [eof_received].  Any other transport lets the
    error through, untouched.  The flag is set by the subprocess transport on
    a pseudo-terminal and by no other constructor, and no call changes it. *)
Theorem read_ready_io_error :
  (forall w c keep_open,
     _read_ready (RdFail c) keep_open w =
     if _eio_is_eof (self w) then _read_ready (RdData []) keep_open w
     else (Raise (OSError c), w)) ∧
  (forall w c keep_open,
     _eio_is_eof (self w) = true ->
     (_read_ready (RdFail c) keep_open w).1 = Ok tt ∧
     _is_reading (self (exec (OnReadReady (RdFail c) keep_open) w)) = false ∧
     _in_fd (self (exec (OnReadReady (RdFail c) keep_open) w)) = -1 ∧
     trace (exec (OnReadReady (RdFail c) keep_open) w) =
       trace w ++ eof_received ::
         (if keep_open || _closing (self w) || has_queue w then []
          else [connection_lost None])) ∧
  (forall w c keep_open,
     reachable w -> enabled (OnReadReady (RdFail c) keep_open) w ->
     _eio_is_eof (self w) = true ->
     count is_eof_received (trace w) = 0%nat ∧
     count is_eof_received (trace (exec (OnReadReady (RdFail c) keep_open) w)) = 1%nat ∧
     ¬ registered H_read_ready (readers (loop (exec (OnReadReady (RdFail c) keep_open) w)))) ∧
  (forall w c keep_open,
     _eio_is_eof (self w) = false ->
     _read_ready (RdFail c) keep_open w = (Raise (OSError c), w)) ∧
  (forall pty window kw_stderr os,
     _eio_is_eof (self (new_SubprocessTransport pty window kw_stderr os)) = pty) ∧
  (forall sock, _eio_is_eof (self (new_SocketTransport sock)) = false) ∧
  _eio_is_eof (self new_StdioTransport) = false ∧
  (forall c w, _eio_is_eof (self (exec c w)) = _eio_is_eof (self w)).
Proof.
  split_all.
  - intros w c k. py; reflexivity.
  - intros w c k He. unfold has_queue.
    destruct k; py; split_all; try reflexivity; by rewrite <-?app_assoc.
  - intros w c k Hw En He.
    assert (enabled (OnReadReady (RdData []) k) w) as En'.
    { destruct En as [Hreg _]. split; [done|]. vm_compute. discriminate. }
    destruct (read_ready_enabled_open w _ _ Hw En') as (Hr & Hin & Hc & Hn).
    assert (reachable (exec (OnReadReady (RdFail c) k) w)) as Hw' by (by apply reach_call).
    destruct (inv_reachable _ Hw') as [IR' _ _ _ _].
    split; [done|]. split.
    + clear -Hr Hc Hn He. destruct k; py; rewrite ?count_app, Hn; reflexivity.
    + intros [fd Hfd]. destruct (inv_read_ready _ IR' _ Hfd) as [Hr' _].
      revert Hr'. clear -He. destruct k; py; done.
  - intros w c k He. by py.
  - intros pty window kw os.
    cbv [new_SubprocessTransport _Transport__init__ Spooler__init__ Popen_ Popen_stream fresh].
    destruct pty, window as [[rows cols]|], kw as [[| | |fd]|],
      (openpty os) as [master session_fd]; py; reflexivity.
  - intros sock. cbv [new_SocketTransport _Transport__init__ fresh]. py; reflexivity.
  - reflexivity.
  - intros c w.
    by destruct (is_a_call (sub (self w)) (_eio_is_eof (self w)) c w).
Qed.

Lemma read_ready_io_error_witness :
  (_read_ready (RdFail EIO) true (new_SubprocessTransport true None None spawn0)).1 = Ok tt ∧
  trace (exec (OnReadReady (RdFail EIO) true) (new_SubprocessTransport true None None spawn0)) =
    trace (new_SubprocessTransport true None None spawn0) ++ [eof_received].
Proof.
  pose proof (proj1 (proj2 read_ready_io_error)
                (new_SubprocessTransport true None None spawn0) EIO true eq_refl)
    as (H1 & _ & _ & H2).
  split; [exact H1 | exact H2].
Defined.



(** C10: a subprocess transport created on a pseudo-terminal, in any state
    it can reach.  The child's three streams were given the subordinate
    descriptor, so the Popen object has no stream of its own: [_stderr] is
    None and no Spooler is registered; [get_stderr()] returns b'' and changes
    nothing; [can_write_eof()] is False; [_write_eof_now()] does nothing, and
    [_out_fd] stays what it is. *)
Theorem pty_transport_has_no_stderr_no_half_close w :
  reach initial_pty enabled w ->
  on_pty w ∧
  _eio_is_eof (self w) = true ∧
  ¬ registered H_spooler_read_ready (readers (loop w)) ∧
  (forall avail, get_stderr avail w = (Ok [], w)) ∧
  can_write_eof w = (Ok false, w) ∧
  _write_eof_now w = (Ok tt, w) ∧
  _out_fd (self (_write_eof_now w).2) = _out_fd (self w).
Proof.
  intros Hw. destruct (on_pty_reach w Hw) as (Hpty & Heio & IR).
  split; [done|]. split; [done|].
  destruct Hpty as (pid' & master & Hsub & Herr).
  split.
  { intros [fd Hfd]. destruct (inv_spooler_ready _ IR _ Hfd) as (sp & Hsp & _). congruence. }
  split; [intros avail; by py|].
  split; [by py|]. split; by py.
Qed.

Lemma pty_transport_has_no_stderr_no_half_close_witness :
  let w := run [DoWrite abc (WrAccepted 1); DoWriteEof; OnReadReady (RdFail EIO) true;
                DoGetStderr [RdData abc]; OnExited 100 0]
               (new_SubprocessTransport true (Some (24, 80)) (Some PIPE) spawn0) in
  get_stderr [RdData abc] w = (Ok [], w) ∧ can_write_eof w = (Ok false, w).
Proof.
  cbv zeta.
  refine (let H := pty_transport_has_no_stderr_no_half_close _ _ in
          conj (proj1 (proj2 (proj2 (proj2 H))) _) (proj1 (proj2 (proj2 (proj2 (proj2 H)))))).
  apply reach_run; [apply reach_initial; by eexists _, _, _ | enabled_now].
Defined.


(** * Further properties of the module *)

Ltac px_unfold :=
  cbv [is_reading is_closing get_write_buffer_limits set_write_buffer_limits
       get_write_buffer_size] in *.

Ltac px := px_unfold; py.

Lemma sum_len (blocks : list bytes) : foldr Z.add 0 (len <$> blocks) = len (concat blocks).
Proof.
  induction blocks as [|b blocks IH]; [done|].
  cbn [fmap list_fmap foldr concat]. rewrite len_app. cbn in IH. rewrite <-IH. done.
Qed.

Lemma len_bytes_from n (b : bytes) : 0 <= n <= len b -> len (bytes_from n b) = len b - n.
Proof. intros Hn. unfold len, bytes_from in *. rewrite length_drop. lia. Qed.

Lemma dequeue_break_nonempty q n q' :
  0 <= n -> dequeue q n = (LoopBreak, q') -> 0 < len (concat q').
Proof.
  revert n. induction q as [|block q IH]; intros n Hn; cbn [dequeue].
  - destruct (n =? 0); discriminate.
  - destruct (Z.eqb_spec n 0); [discriminate|].
    destruct (Z.gtb_spec (len block) n) as [Hlt|Hge].
    + intros [= <-]. cbn [concat]. rewrite len_app, len_bytes_from by lia.
      pose proof (len_nonneg (concat q)). lia.
    + apply IH. pose proof (len_nonneg block). lia.
Qed.

Lemma queue_inv_spooler_read_ready r : preserves QueueInv (Spooler__read_ready r).
Proof. intros w I. py; exact I. Qed.

Lemma queue_inv_spooler_drain : forall avail, preserves QueueInv (Spooler_drain avail).
Proof. preserved_by_drain queue_inv_spooler_read_ready. Qed.

Lemma queue_inv_call c w : enabled c w -> QueueInv w -> QueueInv (exec c w).
Proof.
  intros En I. destruct c.
  7: preserved_by_get_stderr queue_inv_spooler_drain.
  8: { (* _write_ready *)
    destruct r as [|n|c]; [by py| |py; try exact I; intros ? [=]].
    destruct En as [_ Hn].
    destruct (_queue (self w)) as [q|] eqn:Hq; [|py; exact I].
    cbn [default] in Hn.
    pose proof (dequeue_spec q n Hn) as [Hne _].
    pose proof (dequeue_break_nonempty q n) as Hbr.
    unfold exec, perform, _write_ready. py_simpl.
    destruct (dequeue q n) as [how q'] eqn:Hd. cbn [fst] in Hne.
    destruct how; [|py; intros ? [=]|done].
    py. intros ? [= <-]. apply Hbr; [lia|done]. }
  1: { unfold QueueInv in *. py; try exact I; try (intros ? [=]).
       - subst. rewrite concat_app, len_app. cbn [concat].
         pose proof (I _ eq_refl). pose proof (len_nonneg (data ++ [])). lia.
       - subst. cbn [concat enabled] in *. rewrite app_nil_r.
         rewrite len_bytes_from by lia. lia. }
  all: unfold QueueInv in *; py; try exact I; try (intros ? [=]).
Qed.

Lemma queue_inv_initial w : initial w -> QueueInv w.
Proof.
  destruct 1 as [sock| |pty window kw os _]; init_unfold.
  3: destruct pty, window as [[rows cols]|], kw as [[| | |fd]|],
       (openpty os) as [master session_fd].
  all: py; intros ? [=].
Qed.

Lemma queue_inv_reachable w : reachable w -> QueueInv w.
Proof.
  induction 1 as [w Hw|c w _ IH Hc];
    [by apply queue_inv_initial | by apply queue_inv_call].
Qed.

(** X1: buffer accounting.  In every reachable state
    [get_write_buffer_size()] returns the number of queued bytes and changes
    nothing; it is 0 exactly when there is no queue and positive exactly while
    the protocol is paused (its last flow-control call is [pause_writing]).
    This is the behaviour of the limits [get_write_buffer_limits()] reports,
    (0, 0), and [set_write_buffer_limits] accepts exactly the settings that
    keep them: None or 0 for each mark, anything else is an AssertionError;
    it never changes the transport. *)
Theorem write_buffer_size_and_limits w :
  reachable w ->
  (exists n,
     get_write_buffer_size w = (Ok n, w) ∧
     n = len (pending w) ∧
     (n = 0 <-> _queue (self w) = None) ∧
     (0 < n <-> _queue (self w) ≠ None) ∧
     flow_state (trace w) = Some (0 <? n)) ∧
  get_write_buffer_limits w = (Ok (0, 0), w) ∧
  (forall high low,
     set_write_buffer_limits high low w =
     (if bool_decide ((high = None ∨ high = Some 0) ∧ (low = None ∨ low = Some 0))
      then Ok tt else Raise AssertionError, w)).
Proof.
  intros Hw. pose proof (queue_inv_reachable w Hw) as IQ.
  destruct (inv_reachable w Hw) as [_ _ _ IF _].
  unfold FlowInv, has_queue in IF. unfold QueueInv in IQ. unfold pending.
  split; [|split; [done|]].
  - destruct (_queue (self w)) as [q|] eqn:Hq.
    + exists (len (concat q)). pose proof (IQ q eq_refl) as Hpos.
      split; [px; by rewrite sum_len|]. split; [done|].
      split; [split; [lia|done]|]. split; [done|].
      rewrite IF. f_equal. symmetry. by apply Z.ltb_lt.
    + exists 0. split; [by px|]. split; [done|]. split; [done|].
      split; [split; [lia|done]|]. done.
  - intros [h|] [l|]; px; case_bool_decide as Hd; try done;
      try (exfalso; apply Hd; split; (by left) || (right; congruence));
      try (destruct Hd as [[?|?] [?|?]]; congruence).
Qed.

Lemma write_buffer_size_and_limits_witness :
  let w := run [DoWrite abc (WrAccepted 1); DoWrite de (WrAccepted 0)]
               (new_SocketTransport 5) in
  exists n, get_write_buffer_size w = (Ok n, w) ∧ n = len (pending w).
Proof.
  cbv zeta.
  refine (let H := proj1 (write_buffer_size_and_limits _ _) in
          match H with ex_intro _ n (conj H1 (conj H2 _)) => ex_intro _ n (conj H1 H2) end).
  apply reachable_run; [apply reach_initial; constructor | enabled_now].
Defined.

(** X2: [write()] loses and invents no byte.  On an open transport, whatever
    part of [data] the kernel takes, the bytes written to the output
    descriptor followed by the bytes queued are, after the call, what they
    were before followed by [data]; the call returns normally and keeps the
    descriptor. *)
Theorem write_conserves_bytes w data n :
  _closing (self w) = false -> _eof (self w) = false -> 0 <= n <= len data ->
  (write data (WrAccepted n) w).1 = Ok tt ∧
  _out_fd (self (exec (DoWrite data (WrAccepted n)) w)) = _out_fd (self w) ∧
  wrote (_out_fd (self w)) (trace (exec (DoWrite data (WrAccepted n)) w)) ++
    pending (exec (DoWrite data (WrAccepted n)) w) =
  (wrote (_out_fd (self w)) (trace w) ++ pending w) ++ data.
Proof.
  intros Hc He Hn. unfold pending.
  py; split_all; try reflexivity; rewrite ?wrote_app, ?wrote_one, ?app_nil_r;
    cbn [id concat]; rewrite ?app_nil_r; bool_facts.
  - by rewrite concat_app, app_assoc; cbn [concat]; rewrite app_nil_r.
  - by rewrite <-app_assoc, bytes_upto_from.
  - by subst; rewrite bytes_upto_all.
Qed.

Lemma write_conserves_bytes_witness :
  wrote 5 (trace (exec (DoWrite abc (WrAccepted 1)) (new_SocketTransport 5))) ++
    pending (exec (DoWrite abc (WrAccepted 1)) (new_SocketTransport 5)) = abc.
Proof.
  exact (proj2 (proj2 (write_conserves_bytes (new_SocketTransport 5) abc 1
                         eq_refl eq_refl ltac:(vm_compute; split; discriminate)))).
Defined.

Ltac behind_done :=
  match goal with
  | Hw : forall fd, wrote fd (trace _) = wrote fd _ |- _ =>
      unfold Behind; py_unfold;
      repeat match goal with
             | H : _queue (self _) = _, H' : _queue (self _) = _ |- _ =>
                 rewrite H in H'; simplify_eq
             end;
      split;
      [ intros ?; rewrite ?wrote_app; cbn [wrote]; rewrite ?app_nil_r; apply Hw
      | first [ left; eexists; eassumption
              | left; eexists; rewrite <-app_assoc; reflexivity
              | right; split; first [reflexivity | assumption | congruence] ] ]
  end.

Lemma behind_spooler_read_ready q tr0 r : preserves (Behind q tr0) (Spooler__read_ready r).
Proof. intros w [Hw [[more Hq]|[Hq Hc]]]; py; behind_done. Qed.

Lemma behind_spooler_drain q tr0 : forall avail, preserves (Behind q tr0) (Spooler_drain avail).
Proof. preserved_by_drain (behind_spooler_read_ready q tr0). Qed.

Lemma behind_call q tr0 c w : as_written c -> Behind q tr0 w -> Behind q tr0 (exec c w).
Proof.
  intros Hc I. destruct c.
  7: preserved_by_get_stderr (behind_spooler_drain q tr0).
  8: cbn in Hc; subst r.
  all: destruct I as [Hw [[more Hq]|[Hq Hcl]]]; py; behind_done.
Qed.

Lemma behind_run q tr0 cs w :
  Forall as_written cs -> Behind q tr0 w -> Behind q tr0 (run cs w).
Proof.
  revert w. induction cs as [|c cs IH]; intros w Hcs I; [done|].
  apply Forall_cons in Hcs as [Hc Hcs]. apply IH; [done|]. by apply behind_call.
Qed.

(** X3: on the code as written, nothing is written behind a queue.
    [_write_ready] calls [os.writev(self._queue)], which raises TypeError
    before any I/O and leaves everything as it was.  So once a [write()] was
    cut short and a queue exists, whatever the consumer and the loop call
    afterwards, no byte reaches the kernel any more, on any descriptor: the
    queue only grows at its tail, until [abort()] discards it whole, and then
    the transport is closing and accepts no [write()]. *)
Theorem nothing_is_written_behind_a_queue w q cs :
  _queue (self w) = Some q -> Forall as_written cs ->
  _write_ready WvArity w = (Raise TypeError, w) ∧
  (forall fd, wrote fd (trace (run cs w)) = wrote fd (trace w)) ∧
  ((exists more, _queue (self (run cs w)) = Some (q ++ more)) ∨
   (_queue (self (run cs w)) = None ∧ _closing (self (run cs w)) = true)).
Proof.
  intros Hq Hcs. split; [by apply (write_ready_as_written w q)|].
  apply (behind_run q (trace w) cs w Hcs). split; [done|].
  left. exists []. by rewrite app_nil_r.
Qed.

Lemma nothing_is_written_behind_a_queue_witness :
  wrote 5 (trace (run [DoWrite de (WrAccepted 2); OnWriteReady WvArity; DoClose;
                       OnWriteReady WvArity]
                      (exec (DoWrite abc (WrAccepted 1)) (new_SocketTransport 5)))) =
  [Byte.x61].
Proof.
  refine (eq_trans (proj1 (proj2 (nothing_is_written_behind_a_queue
            (exec (DoWrite abc (WrAccepted 1)) (new_SocketTransport 5))
            [bytes_from 1 abc]
            [DoWrite de (WrAccepted 2); OnWriteReady WvArity; DoClose; OnWriteReady WvArity]
            eq_refl _)) 5) _).
  - repeat constructor.
  - vm_compute. reflexivity.
Defined.

(** X4: of the errors of the kernel the write path catches the broken pipe
    only.  Any other [OSError] leaves [write()] and [_write_ready] as it came,
    with the transport, the loop and the callbacks untouched (the data of the
    failed [write()] is not queued); a broken pipe in [_write_ready] is
    [abort()]. *)
Theorem only_broken_pipe_is_caught w c :
  c ≠ EPIPE ->
  (_closing (self w) = false -> _eof (self w) = false -> _queue (self w) = None ->
   forall data, write data (WrFail c) w = (Raise (OSError c), w)) ∧
  (_queue (self w) ≠ None ->
   _write_ready (WvFail c) w = (Raise (OSError c), w) ∧
   _write_ready (WvFail EPIPE) w = abort w).
Proof.
  intros Hc. split.
  - intros Hcl He Hq data. destruct c; [done|..]; by py.
  - intros Hq. destruct (_queue (self w)) as [q|] eqn:Hq'; [clear Hq|done]. split.
    + destruct c; [done|..]; by py.
    + py; reflexivity.
Qed.

Lemma only_broken_pipe_is_caught_witness :
  write abc (WrFail EAGAIN) (new_SocketTransport 5) =
  (Raise (OSError EAGAIN), new_SocketTransport 5).
Proof.
  exact (proj1 (only_broken_pipe_is_caught (new_SocketTransport 5) EAGAIN
                  ltac:(discriminate)) eq_refl eq_refl eq_refl abc).
Defined.

Lemma world_eta w : mkWorld (self w) (loop w) (trace w) = w.
Proof. by destruct w. Qed.

Lemma set_queue_same t q : _queue t = q -> set_queue q t = t.
Proof. intros <-. by destruct t. Qed.

(** X5: while a queue is outstanding, writes only grow it.  Any number of
    [write()] calls on an open transport with a queue append their data to the
    queue in the order of the calls; no system call is made (the answers of
    the kernel are not consulted), no callback, and nothing else changes. *)
Theorem writes_behind_a_queue_are_appended (ds : list (bytes * write_answer)) w q :
  _closing (self w) = false -> _eof (self w) = false -> _queue (self w) = Some q ->
  run ((fun d => DoWrite d.1 d.2) <$> ds) w =
  mkWorld (set_queue (Some (q ++ ds.*1)) (self w)) (loop w) (trace w).
Proof.
  revert w q. induction ds as [|[d r] ds IH]; intros w q Hc He Hq.
  - cbn. rewrite app_nil_r, set_queue_same by done. by rewrite world_eta.
  - cbn [fmap list_fmap run foldl fst snd].
    assert (exec (DoWrite d r) w =
            mkWorld (set_queue (Some (q ++ [d])) (self w)) (loop w) (trace w)) as ->
      by (py; reflexivity).
    change (foldl (λ w c, exec c w) ?w0 ?cs) with (run cs w0).
    rewrite (IH _ (q ++ [d])) by done.
    cbn [self loop trace set_queue _queue _in_fd _out_fd _closing _is_reading _eof
         _eio_is_eof sub _stderr _returncode].
    by rewrite <-app_assoc.
Qed.

Lemma writes_behind_a_queue_are_appended_witness :
  _queue (self (run [DoWrite abc (WrAccepted 1); DoWrite de (WrAccepted 2);
                     DoWrite ab (WrFail EPIPE)] (new_SocketTransport 5))) =
  Some [bytes_from 1 abc; de; ab].
Proof.
  change (run [DoWrite abc (WrAccepted 1); DoWrite de (WrAccepted 2);
               DoWrite ab (WrFail EPIPE)] (new_SocketTransport 5))
    with (run ((fun d => DoWrite d.1 d.2) <$> [(de, WrAccepted 2); (ab, WrFail EPIPE)])
              (exec (DoWrite abc (WrAccepted 1)) (new_SocketTransport 5))).
  rewrite (writes_behind_a_queue_are_appended
             [(de, WrAccepted 2); (ab, WrFail EPIPE)]
             (exec (DoWrite abc (WrAccepted 1)) (new_SocketTransport 5))
             [bytes_from 1 abc] eq_refl eq_refl eq_refl).
  reflexivity.
Defined.

(** X6: the loop never runs [_write_ready] without a queue.  In every
    reachable state in which the handler is registered, its assertion
    [self._queue is not None] holds and its loop never pops from an empty
    deque, whatever count (within the bytes offered) the kernel reports: the
    handler fails neither with AssertionError nor with IndexError. *)
Theorem write_ready_never_without_queue w r :
  reachable w -> enabled (OnWriteReady r) w ->
  _queue (self w) ≠ None ∧
  (_write_ready r w).1 ≠ Raise AssertionError ∧
  (_write_ready r w).1 ≠ Raise IndexError.
Proof.
  intros Hw [[fd Hfd] Hn].
  destruct (inv_reachable w Hw) as [_ IW _ _ _].
  destruct (inv_write_ready _ IW _ _ Hfd) as (_ & _ & Hq).
  split; [done|].
  destruct (_queue (self w)) as [q|] eqn:Hq'; [clear Hq|done].
  destruct r as [|n|c]; [by py| |by destruct c; py].
  cbn [default] in Hn. destruct (dequeue_spec q n Hn) as [Hne _].
  unfold _write_ready. py_simpl.
  destruct (dequeue q n) as [how q1]. cbn [fst] in Hne.
  destruct how; [| |done]; by py.
Qed.

Lemma write_ready_never_without_queue_witness :
  _queue (self (exec (DoWrite abc (WrAccepted 1)) (new_SocketTransport 5))) ≠ None.
Proof.
  refine (proj1 (write_ready_never_without_queue
                   (exec (DoWrite abc (WrAccepted 1)) (new_SocketTransport 5))
                   (WvAccepted 2) _ _)).
  - apply reach_call; [apply reach_initial; constructor | enabled_now].
  - enabled_now.
Defined.

Ltac shut_done :=
  match goal with
  | I : Shut _ _ _ |- _ =>
      unfold Shut in *; py_unfold; destruct I; split; intros; auto
  end.

Lemma shut_spooler_read_ready cl ef r : preserves (Shut cl ef) (Spooler__read_ready r).
Proof. intros w I. py; shut_done. Qed.

Lemma shut_spooler_drain cl ef : forall avail, preserves (Shut cl ef) (Spooler_drain avail).
Proof. preserved_by_drain (shut_spooler_read_ready cl ef). Qed.

Lemma shut_call cl ef c w : Shut cl ef w -> Shut cl ef (exec c w).
Proof.
  intros I. destruct c.
  7: preserved_by_get_stderr (shut_spooler_drain cl ef).
  all: py; shut_done.
Qed.

Lemma shut_run cl ef cs w : Shut cl ef w -> Shut cl ef (run cs w).
Proof.
  revert w. induction cs as [|c cs IH]; intros w I; [done|].
  apply IH. by apply shut_call.
Qed.

(** X7: closing and write-EOF are for good.  Whatever is called afterwards,
    and whatever the kernel and the loop answer, a transport that is closing
    stays closing ([is_closing()] answers True) and a transport on which
    write-EOF was requested stays so; on either, every [write()] fails its
    assertion and leaves everything as it was. *)
Theorem closing_and_eof_are_permanent cs w :
  (_closing (self w) = true -> is_closing (run cs w) = (Ok true, run cs w)) ∧
  (_eof (self w) = true -> _eof (self (run cs w)) = true) ∧
  (_closing (self w) = true ∨ _eof (self w) = true ->
   forall data r, write data r (run cs w) = (Raise AssertionError, run cs w)).
Proof.
  destruct (shut_run (_closing (self w)) (_eof (self w)) cs w) as [Hc He]; [done|].
  split_all.
  - intros H. unfold is_closing, gets. by rewrite (Hc H).
  - done.
  - intros [H|H] data r.
    + specialize (Hc H). by py.
    + specialize (He H). by py.
Qed.

Lemma closing_and_eof_are_permanent_witness :
  let w := run [DoWrite abc (WrAccepted 1); DoClose; OnWriteReady WvArity; DoPauseReading]
               (new_SocketTransport 5) in
  write de (WrAccepted 2) w = (Raise AssertionError, w).
Proof.
  cbv zeta.
  exact (proj2 (proj2 (closing_and_eof_are_permanent
                         [OnWriteReady WvArity; DoPauseReading]
                         (run [DoWrite abc (WrAccepted 1); DoClose] (new_SocketTransport 5))))
               (or_introl eq_refl) de (WrAccepted 2)).
Defined.

(** Outside reading, nothing is registered on the input descriptor. *)
Lemma reader_free w :
  ReaderInv w -> _is_reading (self w) = false ->
  readers (loop w) !! _in_fd (self w) = None.
Proof.
  intros [Ia Ib Ic Id Ie] Hr.
  destruct (readers (loop w) !! _in_fd (self w)) as [[| |]|] eqn:E; [| |..].
  - destruct (Ib _ E). congruence.
  - destruct (Ie _ E).
  - destruct (Ic _ E) as (sp & Hsp & Hfd & Hne). destruct (Id _ Hsp); congruence.
  - done.
Qed.

(** X8: [close()].  It never raises and a second [close()] does nothing.  On
    an open transport without a queue it is [abort()]; with a queue it stops
    the reading and marks the transport closing, and leaves the queue, the
    write handler and the output descriptor as they are, with no callback:
    [connection_lost] is left to the handler. *)
Theorem close_aborts_or_defers w :
  reachable w ->
  (close w).1 = Ok tt ∧
  exec DoClose (exec DoClose w) = exec DoClose w ∧
  (_closing (self w) = false -> _queue (self w) = None -> close w = abort w) ∧
  (_closing (self w) = false -> _queue (self w) ≠ None ->
   self (exec DoClose w) =
     set_in_fd (-1) (set_is_reading false (set_closing true (self w))) ∧
   readers (loop (exec DoClose w)) = delete (_in_fd (self w)) (readers (loop w)) ∧
   writers (loop (exec DoClose w)) = writers (loop w) ∧
   trace (exec DoClose w) = trace w).
Proof.
  intros Hw. destruct (inv_reachable w Hw) as [IR _ _ _ _].
  pose proof (reader_free w IR) as Hfree. clear Hw IR.
  split_all.
  - by py.
  - py; reflexivity.
  - intros Hc Hq. py; reflexivity.
  - intros Hc Hq. destruct (_queue (self w)) eqn:Hq'; [clear Hq|done].
    py; split_all; try reflexivity.
    + cbv [set_in_fd set_is_reading set_closing]. py_simpl. reflexivity.
    + by rewrite delete_id by auto.
Qed.

Lemma close_aborts_or_defers_witness :
  let w := exec (DoWrite abc (WrAccepted 1)) (new_SocketTransport 5) in
  trace (exec DoClose w) = trace w.
Proof.
  cbv zeta.
  refine (proj2 (proj2 (proj2 (proj2 (proj2 (proj2 (close_aborts_or_defers
            (exec (DoWrite abc (WrAccepted 1)) (new_SocketTransport 5)) _))) eq_refl _)))).
  - apply reach_call; [apply reach_initial; constructor | enabled_now].
  - vm_compute. discriminate.
Defined.

Lemma world_eq w w' :
  self w = self w' -> loop w = loop w' -> trace w = trace w' -> w = w'.
Proof. destruct w, w'; cbn; congruence. Qed.

Lemma loop_eq l l' : readers l = readers l' -> writers l = writers l' -> l = l'.
Proof. destruct l, l'; cbn; congruence. Qed.

Lemma set_is_reading_back t a b :
  _is_reading t = b -> set_is_reading b (set_is_reading a t) = t.
Proof. intros <-. by destruct t. Qed.

(** X9: pausing and resuming the reading.  Each is idempotent; in a reachable
    state each undoes the other exactly (transport, registrations and trace);
    and once the input descriptor is gone (end of file, [close()],
    [abort()]) [resume_reading()] does nothing: the transport cannot be made
    to read again. *)
Theorem pause_and_resume_reading_are_inverse w :
  reachable w ->
  exec DoPauseReading (exec DoPauseReading w) = exec DoPauseReading w ∧
  exec DoResumeReading (exec DoResumeReading w) = exec DoResumeReading w ∧
  (_is_reading (self w) = true ->
   exec DoResumeReading (exec DoPauseReading w) = w) ∧
  (_is_reading (self w) = false ->
   exec DoPauseReading (exec DoResumeReading w) = w) ∧
  (_in_fd (self w) = -1 ->
   exec DoResumeReading w = w ∧ is_reading w = (Ok false, w)).
Proof.
  intros Hw. destruct (inv_reachable w Hw) as [IR _ _ _ _].
  pose proof (reader_free w IR) as Hfree.
  pose proof (inv_reading w IR) as Hreg. clear Hw IR.
  split_all.
  - py; reflexivity.
  - py; reflexivity.
  - intros Hr. destruct (Hreg Hr) as [Hin Hne]. apply Z.eqb_neq in Hne.
    py. apply world_eq; cbn [self loop trace]; [|apply loop_eq; cbn [readers writers]|]; try done.
    + by apply set_is_reading_back.
    + by apply insert_delete_id.
  - intros Hr. specialize (Hfree Hr).
    py; apply world_eq; cbn [self loop trace]; try done.
    + by apply set_is_reading_back.
    + apply loop_eq; cbn [readers writers]; [|done]. by apply delete_insert_id.
  - intros Hin. split.
    + py; try reflexivity. lia.
    + destruct (_is_reading (self w)) eqn:Hr; [|by px].
      destruct (Hreg eq_refl). done.
Qed.

Lemma pause_and_resume_reading_are_inverse_witness :
  exec DoResumeReading (exec DoPauseReading (new_SocketTransport 5)) =
  new_SocketTransport 5.
Proof.
  refine (proj1 (proj2 (proj2 (pause_and_resume_reading_are_inverse
                                 (new_SocketTransport 5) _))) eq_refl).
  apply reach_initial; constructor.
Defined.

(** X10: [abort()] takes the transport off the loop and touches nothing
    else.  In every reachable state, after [abort()] no write handler is left,
    [_read_ready] is not registered, and the only callbacks are
    [resume_writing] (if a queue was dropped) and [connection_lost(None)];
    the Spooler of a subprocess's stderr is neither closed nor unregistered,
    and no descriptor is closed. *)
Theorem abort_unregisters_the_transport w :
  reachable w ->
  writers (loop (exec DoAbort w)) = ∅ ∧
  ¬ registered H_read_ready (readers (loop (exec DoAbort w))) ∧
  (forall fd, readers (loop (exec DoAbort w)) !! fd = Some H_spooler_read_ready <->
              readers (loop w) !! fd = Some H_spooler_read_ready) ∧
  _stderr (self (exec DoAbort w)) = _stderr (self w) ∧
  trace (exec DoAbort w) =
    trace w ++ (if has_queue w then [resume_writing] else []) ++ [connection_lost None].
Proof.
  intros Hw.
  assert (reachable (exec DoAbort w)) as Hw' by (by apply reach_call).
  destruct (inv_reachable _ Hw') as [IR' IW' _ _ _].
  destruct (inv_reachable _ Hw) as [IR _ _ _ _].
  change (exec DoAbort w) with (abort w).2 in *.
  destruct (abort_spec w) as (_ & _ & Hr & _ & Hq & Hrd & _ & Htr).
  split_all.
  - apply map_empty. intros fd.
    destruct (writers (loop (abort w).2) !! fd) as [h|] eqn:E; [|done].
    destruct (inv_write_ready _ IW' _ _ E) as (_ & _ & ?). done.
  - intros [fd Hfd]. destruct (inv_read_ready _ IR' _ Hfd). congruence.
  - intros fd. rewrite Hrd. destruct (_is_reading (self w)) eqn:Hreading; [|done].
    destruct (decide (fd = _in_fd (self w))) as [->|Hne].
    + rewrite lookup_delete_eq. destruct (inv_reading _ IR Hreading) as [-> _]. done.
    + by rewrite lookup_delete_ne.
  - by py.
  - done.
Qed.

Lemma abort_unregisters_the_transport_witness :
  writers (loop (exec DoAbort (exec (DoWrite abc (WrAccepted 1)) (new_SocketTransport 5)))) = ∅.
Proof.
  refine (proj1 (abort_unregisters_the_transport
                   (exec (DoWrite abc (WrAccepted 1)) (new_SocketTransport 5)) _)).
  apply reach_call; [apply reach_initial; constructor | enabled_now].
Defined.

Lemma out_state_snoc fd0 tr o :
  out_state fd0 (tr ++ [o]) = out_step fd0 (out_state fd0 tr) o.
Proof. unfold out_state. by rewrite foldl_app. Qed.

Lemma out_state_prefix fd0 tr1 tr2 b :
  out_state fd0 (tr1 ++ tr2) = Some b -> exists b1, out_state fd0 tr1 = Some b1.
Proof.
  revert b. induction tr2 as [|o tr2 IH] using rev_ind; intros b.
  - rewrite app_nil_r. eauto.
  - rewrite app_assoc, out_state_snoc.
    destruct (out_state fd0 (tr1 ++ tr2)) as [b2|] eqn:E; [|done]. intros _. eauto.
Qed.

(** What the automaton accepts: every write is on [fd0], and none follows a
    half-close. *)
Lemma out_state_writes fd0 tr b :
  out_state fd0 tr = Some b ->
  (forall fd data, os_wrote fd data ∈ tr -> fd = fd0) ∧
  (b = false -> forall o, o ∈ tr -> is_half_close o = false) ∧
  (forall pre o post, tr = pre ++ o :: post -> is_half_close o = true ->
     forall fd data, os_wrote fd data ∉ post).
Proof.
  revert b. induction tr as [|o tr IH] using rev_ind; intros b H.
  - split_all.
    + intros ?? Hin. by apply elem_of_nil in Hin.
    + intros _ ? Hin. by apply elem_of_nil in Hin.
    + intros [|??] ?? Heq; discriminate.
  - rewrite out_state_snoc in H.
    destruct (out_state fd0 tr) as [b0|] eqn:E; [|done].
    destruct (IH b0 eq_refl) as (IH1 & IH2 & IH3). split_all.
    + intros fd data Hin. apply elem_of_app in Hin. destruct Hin as [Hin|Hin]; [eauto|].
      apply list_elem_of_singleton in Hin. subst o. cbn in H.
      destruct b0; [done|]. cbn in H. destruct (Z.eqb_spec fd fd0); done.
    + intros -> o' Hin. apply elem_of_app in Hin. destruct Hin as [Hin|Hin].
      * apply IH2; [|done]. destruct b0; [|done].
        destruct o; cbn in H; done.
      * apply list_elem_of_singleton in Hin. subst o'.
        destruct o; cbn in H |- *; try done.
    + intros pre o' post Heq Hhc fd data Hin.
      destruct post as [|p post _] using rev_ind; [by apply elem_of_nil in Hin|].
      change (pre ++ o' :: post ++ [p]) with (pre ++ (o' :: post) ++ [p]) in Heq.
      rewrite app_assoc in Heq. apply app_inj_tail in Heq. destruct Heq as [-> ->].
      apply elem_of_app in Hin. destruct Hin as [Hin|Hin]; [by eapply IH3|].
      apply list_elem_of_singleton in Hin. subst p.
      destruct b0.
      * done.
      * rewrite (IH2 eq_refl o') in Hhc; [done|].
        apply elem_of_app. right. apply elem_of_cons. by left.
Qed.

Ltac out_done E :=
  unfold OutInv, out_state; py_unfold;
  rewrite ?foldl_app; cbn [foldl];
  repeat match goal with
         | |- context [foldl (out_step ?fd0) (Some false) (trace ?w)] =>
             change (foldl (out_step fd0) (Some false) (trace w))
               with (out_state fd0 (trace w))
         end;
  rewrite ?E; cbn [out_step orb negb]; rewrite ?Z.eqb_refl; cbn [negb]; py_unfold;
  try done; try congruence.

Lemma out_inv_spooler_read_ready fd0 r : preserves (OutInv fd0) (Spooler__read_ready r).
Proof.
  intros w I. unfold OutInv in I.
  destruct (out_state fd0 (trace w)) as [[|]|] eqn:E; [| |done]; py; out_done E.
Qed.

Lemma out_inv_spooler_drain fd0 : forall avail, preserves (OutInv fd0) (Spooler_drain avail).
Proof. preserved_by_drain (out_inv_spooler_read_ready fd0). Qed.

Lemma out_inv_call fd0 c w : OutInv fd0 w -> OutInv fd0 (exec c w).
Proof.
  intros I. destruct c.
  7: preserved_by_get_stderr (out_inv_spooler_drain fd0).
  all: unfold OutInv in I;
    destruct (out_state fd0 (trace w)) as [[|]|] eqn:E; [| |done];
    [destruct I as [Heof Hqueue]|subst fd0].
  all: py; out_done E.
Qed.

Lemma out_inv_initial w : initial w -> OutInv (_out_fd (self w)) w.
Proof.
  destruct 1 as [sock| |pty window kw os _]; init_unfold.
  3: destruct pty, window as [[rows cols]|], kw as [[| | |fd]|],
       (openpty os) as [master session_fd].
  all: py; unfold OutInv, out_state; py_unfold; by cbn.
Qed.

Lemma out_inv_run fd0 cs w : OutInv fd0 w -> OutInv fd0 (run cs w).
Proof.
  revert w. induction cs as [|c cs IH]; intros w I; [done|].
  apply IH. by apply out_inv_call.
Qed.

(** X11: where and when the transport writes.  Whatever is called on a
    transport after its constructor returned, every byte it writes goes to
    the output descriptor it was constructed with, and nothing is written
    after the half-close ([stdin.close()] or [shutdown(SHUT_WR)]) was
    performed. *)
Theorem writes_to_out_fd_until_half_close w0 cs :
  initial w0 ->
  (forall fd data, os_wrote fd data ∈ trace (run cs w0) -> fd = _out_fd (self w0)) ∧
  (forall pre o post, trace (run cs w0) = pre ++ o :: post -> is_half_close o = true ->
     forall fd data, os_wrote fd data ∉ post).
Proof.
  intros Hw0.
  pose proof (out_inv_run _ cs w0 (out_inv_initial w0 Hw0)) as I.
  unfold OutInv in I.
  destruct (out_state (_out_fd (self w0)) (trace (run cs w0))) as [b|] eqn:E; [|done].
  destruct (out_state_writes _ _ _ E) as (H1 & _ & H3). by split.
Qed.

Lemma writes_to_out_fd_until_half_close_witness :
  os_wrote 5 abc ∈ trace (run [DoWrite abc (WrAccepted 3); DoWriteEof]
                              (new_SocketTransport 5)) ∧
  5 = _out_fd (self (new_SocketTransport 5)).
Proof.
  assert (os_wrote 5 abc ∈ trace (run [DoWrite abc (WrAccepted 3); DoWriteEof]
                                      (new_SocketTransport 5))) as Hin
    by (vm_compute; repeat constructor).
  split; [exact Hin|].
  exact (proj1 (writes_to_out_fd_until_half_close (new_SocketTransport 5)
                  [DoWrite abc (WrAccepted 3); DoWriteEof] (initial_socket 5))
               5 abc Hin).
Defined.

Ltac exit_done :=
  unfold ExitInv in *; py_unfold;
  rewrite ?count_app; cbn [count is_process_exited];
  first [left; split; [first [reflexivity | assumption | congruence] | lia]
        | right; split; [first [discriminate | assumption | congruence] | lia]].

Lemma exit_inv_spooler_read_ready r : preserves ExitInv (Spooler__read_ready r).
Proof. intros w [[I1 I2]|[I1 I2]]; py; exit_done. Qed.

Lemma exit_inv_spooler_drain : forall avail, preserves ExitInv (Spooler_drain avail).
Proof. preserved_by_drain exit_inv_spooler_read_ready. Qed.

Lemma exit_inv_call c w : ExitInv w -> ExitInv (exec c w).
Proof.
  intros I. destruct c.
  7: preserved_by_get_stderr exit_inv_spooler_drain.
  all: destruct I as [[I1 I2]|[I1 I2]]; py; exit_done.
Qed.

Lemma exit_inv_initial w : initial w -> ExitInv w.
Proof.
  destruct 1 as [sock| |pty window kw os _]; init_unfold.
  3: destruct pty, window as [[rows cols]|], kw as [[| | |fd]|],
       (openpty os) as [master session_fd].
  all: py; left; split; reflexivity.
Qed.

Lemma exit_inv_reachable w : reachable w -> ExitInv w.
Proof.
  induction 1 as [w Hw|c w _ IH _]; [by apply exit_inv_initial | by apply exit_inv_call].
Qed.

(** X12: the exit of the child.  [_exited(pid, code)] with the pid of the
    child stores the code, reports [process_exited] and changes nothing else
    (the streams stay as they are: the exit of the child closes nothing); with
    another pid it fails its assertion and changes nothing.  In every
    reachable state [get_returncode()] is None exactly as long as
    [process_exited] has not been reported. *)
Theorem exited_stores_returncode w process pty_fd :
  reachable w -> sub (self w) = SubprocessTransport process pty_fd ->
  get_pid w = (Ok (pid process), w) ∧
  (get_returncode w = (Ok None, w) <-> count is_process_exited (trace w) = 0%nat) ∧
  (forall code,
     _exited (pid process) code w =
       (Ok tt, mkWorld (set_returncode (Some code) (self w)) (loop w)
                 (trace w ++ [process_exited])) ∧
     get_returncode (exec (OnExited (pid process) code) w) =
       (Ok (Some code), exec (OnExited (pid process) code) w)) ∧
  (forall pid' code, pid' ≠ pid process ->
     _exited pid' code w = (Raise AssertionError, w)).
Proof.
  intros Hw Hsub. pose proof (exit_inv_reachable w Hw) as I. clear Hw.
  split_all.
  - unfold get_pid. by py.
  - unfold get_returncode. py_simpl.
    destruct I as [[I1 I2]|[I1 I2]]; split; intros H; try done; try lia.
    + by rewrite I1.
    + injection H as H. done.
  - intros code. split; unfold get_returncode; py; try reflexivity; try lia.
  - intros pid' code Hne. py; try reflexivity. lia.
Qed.

Lemma exited_stores_returncode_witness :
  let w := new_SubprocessTransport false None None spawn0 in
  get_returncode (exec (OnExited 100 3) w) = (Ok (Some 3), exec (OnExited 100 3) w).
Proof.
  cbv zeta.
  refine (proj2 (proj1 (proj2 (proj2 (exited_stores_returncode
            (new_SubprocessTransport false None None spawn0) _ None _ eq_refl))) 3)).
  apply reach_initial. constructor. vm_compute. split; discriminate.
Defined.

Lemma set_stderr_twice a b t : set_stderr a (set_stderr b t) = set_stderr a t.
Proof. done. Qed.

Lemma set_stderr_same t s : _stderr t = s -> set_stderr s t = t.
Proof. intros <-. by destruct t. Qed.

Lemma spooler_drain_closed avail w sp :
  _stderr (self w) = Some sp -> sp_fd sp = -1 -> Spooler_drain avail w = (Ok tt, w).
Proof.
  intros Hsp Hfd. destruct avail as [|r avail]; cbn [Spooler_drain]; py; try reflexivity; lia.
Qed.

Lemma spooler_drain_data chunks : forall w sp,
  _stderr (self w) = Some sp -> sp_fd sp ≠ -1 ->
  Spooler_drain (RdData <$> chunks) w =
  (Ok tt,
   if (spooled chunks).2
   then mkWorld (set_stderr (Some (mkSpooler (-1) (sp_contents sp ++ (spooled chunks).1)))
                            (self w))
                (mkLoop (delete (sp_fd sp) (readers (loop w))) (writers (loop w)))
                (trace w ++ [os_closed (sp_fd sp)])
   else mkWorld (set_stderr (Some (mkSpooler (sp_fd sp) (sp_contents sp ++ (spooled chunks).1)))
                            (self w))
                (loop w) (trace w)).
Proof.
  induction chunks as [|chunk chunks IH]; intros w sp Hsp Hfd.
  - cbn. rewrite app_nil_r. destruct sp as [fd contents]. cbn [sp_fd sp_contents].
    by rewrite set_stderr_same, world_eta.
  - cbn [fmap list_fmap Spooler_drain]. apply Z.eqb_neq in Hfd.
    destruct chunk as [|b chunk].
    + cbn [spooled fst snd]. rewrite app_nil_r.
      unfold bind at 1, gets at 1. rewrite Hsp, Hfd.
      unfold bind at 1.
      assert (Spooler__read_ready (RdData []) w =
              (Ok tt, mkWorld (set_stderr (Some (mkSpooler (-1) (sp_contents sp))) (self w))
                        (mkLoop (delete (sp_fd sp) (readers (loop w))) (writers (loop w)))
                        (trace w ++ [os_closed (sp_fd sp)]))) as ->
        by (py; reflexivity).
      by apply (spooler_drain_closed _ _ (mkSpooler (-1) (sp_contents sp))).
    + cbn [spooled]. destruct (spooled chunks) as [kept eof] eqn:Hs. cbn [fst snd] in *.
      unfold bind at 1, gets at 1. rewrite Hsp, Hfd.
      unfold bind at 1.
      assert (Spooler__read_ready (RdData (b :: chunk)) w =
              (Ok tt, mkWorld (set_stderr (Some (mkSpooler (sp_fd sp)
                                                   (sp_contents sp ++ [b :: chunk])))
                                          (self w)) (loop w) (trace w))) as ->
        by (py; reflexivity).
      rewrite (IH _ (mkSpooler (sp_fd sp) (sp_contents sp ++ [b :: chunk])));
        [|done|by apply Z.eqb_neq].
      cbn [self loop trace sp_fd sp_contents]. rewrite set_stderr_twice, <-app_assoc.
      reflexivity.
Qed.

Lemma spooler_drain_none avail w :
  _stderr (self w) = None -> Spooler_drain avail w = (Ok tt, w).
Proof. intros Hsp. destruct avail as [|r avail]; cbn [Spooler_drain]; by py. Qed.

(** The reads of [get()] one run after the other. *)
Lemma spooler_drain_app avail1 avail2 : forall w,
  Spooler_drain (avail1 ++ avail2) w =
  bind (Spooler_drain avail1) (fun _ => Spooler_drain avail2) w.
Proof.
  induction avail1 as [|r avail1 IH]; intros w; [done|].
  cbn [app Spooler_drain]. unfold bind, gets, ret in *.
  destruct (_stderr (self w)) as [sp|] eqn:Hsp.
  - destruct (sp_fd sp =? -1) eqn:Hfd.
    + symmetry. apply (spooler_drain_closed _ _ sp); [done|by apply Z.eqb_eq].
    + destruct (Spooler__read_ready r w) as [[[]|e] w1]; [apply IH|done].
  - symmetry. by apply spooler_drain_none.
Qed.

(** X13: [Spooler.get()].  On an open Spooler, with the reads that are ready
    returning [chunks], it returns what it held followed by the chunks before
    the first empty one, keeps all of it (a later [get()] returns it again),
    and at an empty chunk closes and unregisters its descriptor and reads no
    further.  On a closed Spooler it reads nothing and returns what it holds.
    An error of [os.read] is not caught: [get()] raises it, and the Spooler
    keeps the chunks read before it. *)
Theorem spooler_get_collects_until_eof w sp :
  _stderr (self w) = Some sp ->
  (sp_fd sp ≠ -1 -> forall chunks,
     (Spooler_get (RdData <$> chunks) w).1 =
       Ok (concat (sp_contents sp ++ (spooled chunks).1)) ∧
     _stderr (self (Spooler_get (RdData <$> chunks) w).2) =
       Some (mkSpooler (if (spooled chunks).2 then -1 else sp_fd sp)
                       (sp_contents sp ++ (spooled chunks).1)) ∧
     readers (loop (Spooler_get (RdData <$> chunks) w).2) =
       (if (spooled chunks).2 then delete (sp_fd sp) (readers (loop w))
        else readers (loop w)) ∧
     trace (Spooler_get (RdData <$> chunks) w).2 =
       trace w ++ (if (spooled chunks).2 then [os_closed (sp_fd sp)] else [])) ∧
  (sp_fd sp = -1 -> forall avail,
     Spooler_get avail w = (Ok (concat (sp_contents sp)), w)) ∧
  (sp_fd sp ≠ -1 -> forall c avail,
     Spooler_get (RdFail c :: avail) w = (Raise (OSError c), w)) ∧
  (sp_fd sp ≠ -1 -> forall chunks c avail,
     Spooler_get ((RdData <$> chunks) ++ RdFail c :: avail) w =
     if (spooled chunks).2 then Spooler_get (RdData <$> chunks) w
     else (Raise (OSError c),
           mkWorld (set_stderr (Some (mkSpooler (sp_fd sp)
                                        (sp_contents sp ++ (spooled chunks).1)))
                               (self w))
                   (loop w) (trace w))).
Proof.
  intros Hsp. split_all.
  - intros Hfd chunks. unfold Spooler_get, bind.
    rewrite (spooler_drain_data chunks w sp Hsp Hfd).
    destruct (spooled chunks) as [kept [|]]; cbn [fst snd]; py_unfold;
      split_all; try reflexivity. by rewrite app_nil_r.
  - intros Hfd avail. unfold Spooler_get, bind.
    rewrite (spooler_drain_closed avail w sp Hsp Hfd). by py.
  - intros Hfd c avail. unfold Spooler_get, bind at 1. cbn [Spooler_drain].
    py; try reflexivity. lia.
  - intros Hfd chunks c avail. unfold Spooler_get, bind.
    rewrite spooler_drain_app. unfold bind.
    rewrite (spooler_drain_data chunks w sp Hsp Hfd).
    destruct (spooled chunks) as [kept [|]]; cbn [fst snd].
    + erewrite spooler_drain_closed; [|reflexivity|reflexivity]. reflexivity.
    + apply Z.eqb_neq in Hfd. cbn [Spooler_drain]. py; reflexivity.
Qed.

Lemma spooler_get_collects_until_eof_witness :
  let w := new_SubprocessTransport false None (Some PIPE) spawn0 in
  (Spooler_get [RdData abc; RdData de; RdData []; RdData ab] w).1 = Ok (abc ++ de) ∧
  (Spooler_get [RdData abc; RdFail EIO] w).1 = Raise (OSError EIO) ∧
  spool (Spooler_get [RdData abc; RdFail EIO] w).2 = [abc].
Proof.
  cbv zeta.
  pose proof (spooler_get_collects_until_eof
                (new_SubprocessTransport false None (Some PIPE) spawn0)
                (mkSpooler 9 []) eq_refl) as (H1 & _ & _ & H4).
  split; [exact (proj1 (H1 ltac:(discriminate) [abc; de; []; ab]))|].
  pose proof (H4 ltac:(discriminate) [abc] EIO []) as H.
  cbn [fmap list_fmap app spooled fst snd abc] in H.
  split; [exact (f_equal fst H) | exact (f_equal (fun r => spool r.2) H)].
Defined.

Ltac spooled_done :=
  match goal with
  | I : Spooled _ _ |- _ =>
      unfold Spooled, spool in *; py_unfold;
      repeat match goal with
             | H : _stderr (self _) = _ |- _ => rewrite H in *
             end;
      py_unfold; cbn [id] in *; try assumption;
      try (etrans; [exact I|by apply prefix_app_r])
  end.

Lemma spooled_spooler_read_ready held r : preserves (Spooled held) (Spooler__read_ready r).
Proof. intros w I. py; spooled_done. Qed.

Lemma spooled_spooler_drain held : forall avail, preserves (Spooled held) (Spooler_drain avail).
Proof. preserved_by_drain (spooled_spooler_read_ready held). Qed.

Lemma spooled_call held c w : Spooled held w -> Spooled held (exec c w).
Proof.
  intros I. destruct c.
  7: preserved_by_get_stderr (spooled_spooler_drain held).
  all: py; spooled_done.
Qed.

Lemma spooled_run held cs w : Spooled held w -> Spooled held (run cs w).
Proof.
  revert w. induction cs as [|c cs IH]; intros w I; [done|].
  apply IH. by apply spooled_call.
Qed.

(** What [get_stderr()] returns is what the Spooler holds when it returns. *)
Lemma get_stderr_result avail w b w' :
  get_stderr avail w = (Ok b, w') ->
  b = concat (spool w') ∧ w' = exec (DoGetStderr avail) w.
Proof.
  unfold exec, perform, spool, get_stderr, Spooler_get, bind, gets, ret.
  destruct (_stderr (self w)) as [sp|] eqn:Hsp.
  - destruct (Spooler_drain avail w) as [[[]|e] w1]; [|done].
    cbn [snd]. by intros [= <- <-].
  - cbn [snd]. intros [= <- <-]. by rewrite Hsp.
Qed.

Lemma concat_prefix (l1 l2 : list bytes) : l1 `prefix_of` l2 -> concat l1 `prefix_of` concat l2.
Proof. intros [k ->]. rewrite concat_app. by apply prefix_app_r. Qed.

(** X14: stderr is collected, never dropped.  What a [get_stderr()] returned
    is a prefix of what any later [get_stderr()] returns, whatever happens to
    the transport in between (writes, end of file, [close()], [abort()], the
    exit of the child). *)
Theorem get_stderr_only_grows w avail1 b1 w1 cs avail2 b2 w2 :
  get_stderr avail1 w = (Ok b1, w1) ->
  get_stderr avail2 (run cs w1) = (Ok b2, w2) ->
  b1 `prefix_of` b2.
Proof.
  intros H1 H2.
  apply get_stderr_result in H1 as [-> _]. apply get_stderr_result in H2 as [-> ->].
  apply concat_prefix.
  apply (spooled_call (spool w1) (DoGetStderr avail2)).
  apply spooled_run. unfold Spooled. reflexivity.
Qed.

Lemma get_stderr_only_grows_witness :
  abc `prefix_of` abc ++ de.
Proof.
  refine (get_stderr_only_grows
            (new_SubprocessTransport false None (Some PIPE) spawn0)
            [RdData abc] abc _ [DoClose; OnExited 100 0] [RdData de; RdData []] (abc ++ de) _
            _ _); vm_compute; reflexivity.
Defined.

Lemma read_state_snoc tr o : read_state (tr ++ [o]) = read_step (read_state tr) o.
Proof. unfold read_state. by rewrite foldl_app. Qed.

Lemma read_state_data tr b :
  read_state tr = Some b ->
  (forall data, data_received data ∈ tr -> data ≠ [] ∧ len data <= BLOCK_SIZE) ∧
  (b = false -> eof_received ∉ tr) ∧
  (forall pre post, tr = pre ++ eof_received :: post ->
     (eof_received ∉ post) ∧ (forall data, data_received data ∉ post)).
Proof.
  revert b. induction tr as [|o tr IH] using rev_ind; intros b H.
  - split_all.
    + intros ? Hin. by apply elem_of_nil in Hin.
    + intros _ Hin. by apply elem_of_nil in Hin.
    + intros [|??] ? Heq; discriminate.
  - rewrite read_state_snoc in H.
    destruct (read_state tr) as [b0|] eqn:E; [|done].
    destruct (IH b0 eq_refl) as (IH1 & IH2 & IH3). split_all.
    + intros data Hin. apply elem_of_app in Hin. destruct Hin as [Hin|Hin]; [eauto|].
      apply list_elem_of_singleton in Hin. subst o. cbn [read_step] in H.
      destruct b0; [done|]. cbn [orb] in H.
      destruct (Z.eqb_spec (len data) 0) as [|Hne]; [done|]. cbn [orb] in H.
      destruct (Z.gtb_spec (len data) BLOCK_SIZE); [done|].
      split; [|lia]. intros ->. by apply Hne.
    + intros -> Hin. apply elem_of_app in Hin. destruct Hin as [Hin|Hin].
      * revert Hin. apply IH2. destruct b0; [|done].
        destruct o; cbn in H; done.
      * apply list_elem_of_singleton in Hin. subst o. by destruct b0.
    + intros pre post Heq.
      destruct post as [|p post _] using rev_ind.
      { split; [|intros ?]; intros Hin; by apply elem_of_nil in Hin. }
      change (pre ++ eof_received :: post ++ [p])
        with (pre ++ (eof_received :: post) ++ [p]) in Heq.
      rewrite app_assoc in Heq. apply app_inj_tail in Heq. destruct Heq as [-> ->].
      destruct (IH3 pre post eq_refl) as [IH3a IH3b].
      assert (b0 = true) as ->.
      { destruct b0; [done|]. exfalso. apply (IH2 eq_refl).
        apply elem_of_app. right. apply elem_of_cons. by left. }
      split; [|intros data]; intros Hin; apply elem_of_app in Hin;
        destruct Hin as [Hin|Hin]; try (by eauto); try (by eapply IH3b);
        apply list_elem_of_singleton in Hin; subst p; done.
Qed.

Lemma len_cons_pos (b : Byte.byte) (data : bytes) : (len (b :: data) =? 0) = false.
Proof. apply Z.eqb_neq. unfold len. cbn [length]. lia. Qed.

Ltac read_done E :=
  unfold ReadInv, read_state; py_unfold;
  rewrite ?foldl_app; cbn [foldl];
  repeat match goal with
         | |- context [foldl read_step (Some false) (trace ?w)] =>
             change (foldl read_step (Some false) (trace w)) with (read_state (trace w))
         end;
  rewrite ?E; cbn [read_step orb]; rewrite ?len_cons_pos; cbn [orb]; py_unfold;
  try done; try congruence.

Lemma read_inv_spooler_read_ready r : preserves ReadInv (Spooler__read_ready r).
Proof.
  intros w I. unfold ReadInv in I.
  destruct (read_state (trace w)) as [[|]|] eqn:E; [| |done]; py; read_done E.
Qed.

Lemma read_inv_spooler_drain : forall avail, preserves ReadInv (Spooler_drain avail).
Proof. preserved_by_drain read_inv_spooler_read_ready. Qed.

Lemma read_inv_call c w : ReaderInv w -> enabled c w -> ReadInv w -> ReadInv (exec c w).
Proof.
  intros IR En I. destruct c.
  7: preserved_by_get_stderr read_inv_spooler_drain.
  7: { unfold ReadInv in I.
       destruct (read_state (trace w)) as [[|]|] eqn:E; [| |done].
       - destruct En as [[fd Hfd] _]. apply (inv_read_ready _ IR) in Hfd.
         destruct Hfd as [Hr _]. destruct (inv_reading _ IR Hr). congruence.
       - destruct En as [_ Hlen]. destruct r as [data|c]; py; read_done E.
         destruct (Z.gtb_spec (len (b :: l)) BLOCK_SIZE); [lia|done]. }
  all: unfold ReadInv in I;
    destruct (read_state (trace w)) as [[|]|] eqn:E; [| |done]; py; read_done E.
Qed.

Lemma read_inv_initial w : initial w -> ReadInv w.
Proof.
  destruct 1 as [sock| |pty window kw os _]; init_unfold.
  3: destruct pty, window as [[rows cols]|], kw as [[| | |fd]|],
       (openpty os) as [master session_fd].
  all: py; unfold ReadInv, read_state; py_unfold; by cbn.
Qed.

Lemma read_inv_reachable w : reachable w -> ReadInv w.
Proof.
  induction 1 as [w Hw|c w Hr IH Hc]; [by apply read_inv_initial|].
  destruct (inv_reachable w Hr) as [IR _ _ _ _]. by apply read_inv_call.
Qed.

(** X15: what the protocol is given to read.  In every reachable state, each
    [data_received] carried at least one byte and at most [BLOCK_SIZE], and
    after [eof_received] the protocol was given neither data nor a second
    [eof_received]. *)
Theorem data_received_nonempty_until_eof w :
  reachable w ->
  (forall data, data_received data ∈ trace w -> data ≠ [] ∧ len data <= BLOCK_SIZE) ∧
  (forall pre post, trace w = pre ++ eof_received :: post ->
     (eof_received ∉ post) ∧ (forall data, data_received data ∉ post)).
Proof.
  intros Hw. pose proof (read_inv_reachable w Hw) as I. unfold ReadInv in I.
  destruct (read_state (trace w)) as [b|] eqn:E; [|done].
  destruct (read_state_data _ _ E) as (H1 & _ & H3). by split.
Qed.

Lemma data_received_nonempty_until_eof_witness :
  data_received abc ∈ trace (exec (OnReadReady (RdData abc) true) (new_SocketTransport 5)) ∧
  abc ≠ [] ∧ len abc <= BLOCK_SIZE.
Proof.
  assert (data_received abc ∈
          trace (exec (OnReadReady (RdData abc) true) (new_SocketTransport 5))) as Hin
    by (vm_compute; repeat constructor).
  split; [exact Hin|].
  refine (proj1 (data_received_nonempty_until_eof
                   (exec (OnReadReady (RdData abc) true) (new_SocketTransport 5)) _)
                abc Hin).
  apply reach_call; [apply reach_initial; constructor | enabled_now].
Defined.

Lemma made_state_snoc tr o : made_state (tr ++ [o]) = made_step (made_state tr) o.
Proof. unfold made_state. by rewrite foldl_app. Qed.

Lemma made_state_shape tr b :
  made_state tr = Some b ->
  if b
  then exists pre post, tr = pre ++ connection_made :: post ∧
         Forall (fun o => is_callback o = false) pre ∧ connection_made ∉ post
  else Forall (fun o => is_callback o = false) tr.
Proof.
  revert b. induction tr as [|o tr IH] using rev_ind; intros b H.
  - cbn in H. injection H as <-. constructor.
  - rewrite made_state_snoc in H.
    destruct (made_state tr) as [b0|] eqn:E; [|done].
    specialize (IH b0 eq_refl). destruct b0.
    + destruct IH as (pre & post & -> & Hpre & Hpost).
      assert (b = true ∧ o ≠ connection_made) as [-> Ho]
        by (destruct o; cbn in H; split; congruence).
      exists pre, (post ++ [o]). split; [by rewrite <-app_assoc|]. split; [done|].
      intros Hin. apply elem_of_app in Hin. destruct Hin as [Hin|Hin]; [done|].
      apply list_elem_of_singleton in Hin. congruence.
    + destruct o; cbn in H; try done; injection H as <-;
        first [ exists tr, []; split; [done|]; split; [done|];
                intros Hin; by apply elem_of_nil in Hin
              | apply Forall_app; split; [done|]; by constructor ].
Qed.

Ltac made_done :=
  match goal with
  | I : MadeInv _ |- _ =>
      unfold MadeInv, made_state in *; py_unfold;
      rewrite ?foldl_app; cbn [foldl]; rewrite ?I; reflexivity
  end.

Lemma made_inv_spooler_read_ready r : preserves MadeInv (Spooler__read_ready r).
Proof. intros w I. py; made_done. Qed.

Lemma made_inv_spooler_drain : forall avail, preserves MadeInv (Spooler_drain avail).
Proof. preserved_by_drain made_inv_spooler_read_ready. Qed.

Lemma made_inv_call c w : MadeInv w -> MadeInv (exec c w).
Proof.
  intros I. destruct c.
  7: preserved_by_get_stderr made_inv_spooler_drain.
  all: py; made_done.
Qed.

Lemma made_inv_initial w : initial w -> MadeInv w.
Proof.
  destruct 1 as [sock| |pty window kw os _]; init_unfold.
  3: destruct pty, window as [[rows cols]|], kw as [[| | |fd]|],
       (openpty os) as [master session_fd].
  all: py; unfold MadeInv, made_state; py_unfold; by cbn.
Qed.

Lemma made_inv_run cs w : MadeInv w -> MadeInv (run cs w).
Proof.
  revert w. induction cs as [|c cs IH]; intros w I; [done|].
  apply IH. by apply made_inv_call.
Qed.

(** X16: [connection_made] comes first, once.  Whatever is called on a
    transport after its constructor returned, the trace of its life is: effects
    of the constructor on the kernel, none of them a callback; then
    [connection_made]; then everything else, with no second
    [connection_made]. *)
Theorem connection_made_first_and_once w0 cs :
  initial w0 ->
  exists pre post,
    trace (run cs w0) = pre ++ connection_made :: post ∧
    Forall (fun o => is_callback o = false) pre ∧
    connection_made ∉ post.
Proof.
  intros Hw0.
  exact (made_state_shape _ true (made_inv_run cs w0 (made_inv_initial w0 Hw0))).
Qed.

Lemma connection_made_first_and_once_witness :
  exists pre post,
    trace (run [DoWrite abc (WrAccepted 1); DoAbort]
               (new_SubprocessTransport true (Some (24, 80)) None spawn0)) =
      pre ++ connection_made :: post ∧
    Forall (fun o => is_callback o = false) pre ∧
    connection_made ∉ post.
Proof.
  apply (connection_made_first_and_once
           (new_SubprocessTransport true (Some (24, 80)) None spawn0)
           [DoWrite abc (WrAccepted 1); DoAbort]).
  constructor. vm_compute. split; discriminate.
Defined.

(** X17: [write_eof()] across the three classes.  With no queue outstanding
    and write-EOF not yet requested, [write_eof()] performs a half-close
    exactly when [can_write_eof()] answers True.  It raises only on a
    [StdioTransport] (RuntimeError), and there, as everywhere, it has marked
    write-EOF as requested before: the transport accepts no [write()] any
    more.  It never touches the read side, the closing flag, the queue or the
    loop; the output descriptor is given up (-1) exactly when the stdin pipe
    of a subprocess was closed. *)
Theorem write_eof_agrees_with_can_write_eof w :
  _eof (self w) = false -> _queue (self w) = None ->
  exists b,
    can_write_eof w = (Ok b, w) ∧
    count is_half_close (trace (write_eof w).2) =
      (count is_half_close (trace w) + (if b then 1 else 0))%nat ∧
    (write_eof w).1 =
      match sub (self w) with
      | StdioTransport => Raise RuntimeError
      | _ => Ok tt
      end ∧
    (self (write_eof w).2 = set_eof true (self w) ∨
     (exists process pty_fd,
        sub (self w) = SubprocessTransport process pty_fd ∧ p_stdin process ≠ None) ∧
     self (write_eof w).2 = set_out_fd (-1) (set_eof true (self w))) ∧
    loop (write_eof w).2 = loop w ∧
    (forall data r,
       (write data r (write_eof w).2).1 = Raise AssertionError).
Proof.
  intros He Hq.
  destruct (sub (self w)) as [process pty_fd| sock |] eqn:Hsub;
    [destruct (p_stdin process) as [fd|] eqn:Hin; [exists true|exists false]
    |exists true|exists false].
  all: py; rewrite ?count_app; cbn [count is_half_close]; split_all;
    try reflexivity; try lia; try (by left); try (intros data r; by py).
  all: right; split; [|reflexivity]; eexists _, _; split; [reflexivity|congruence].
Qed.

Lemma write_eof_agrees_with_can_write_eof_witness :
  exists b, can_write_eof new_StdioTransport = (Ok b, new_StdioTransport) ∧
            (write_eof new_StdioTransport).1 = Raise RuntimeError.
Proof.
  refine (match write_eof_agrees_with_can_write_eof new_StdioTransport eq_refl eq_refl with
          | ex_intro _ b (conj H1 (conj _ (conj H3 _))) => ex_intro _ b (conj H1 H3)
          end).
Defined.

Lemma get_watcher_calls_set ps cls wt :
  _watcher cls = Some wt ->
  get_watcher_calls ps cls = (replicate (length ps) (Ok wt), cls).
Proof.
  intros H. induction ps as [|p ps IH]; [done|].
  cbn [get_watcher_calls length replicate]. unfold _get_watcher. by rewrite H, IH.
Qed.

(** X18: the child watcher is made once.  The first [_get_watcher()] chooses
    the watcher ([PidfdChildWatcher] if asyncio has it and [os.pidfd_open]
    works, [SafeChildWatcher] otherwise) and stores it in the class before it
    attaches it to the running loop; every later call returns that watcher,
    whatever the platform answers then, and attaches nothing.  So
    [attach_loop] is called once if a loop was running at the first call, and
    never if none was (that call raised RuntimeError). *)
Theorem get_watcher_is_made_once p ps :
  let wt := if has_PidfdChildWatcher p && pidfd_open_ok p
            then PidfdChildWatcher else SafeChildWatcher in
  get_watcher_calls (p :: ps) (mkWatcherClass None 0) =
  ((if loop_running p then Ok wt else Raise RuntimeError)
     :: replicate (length ps) (Ok wt),
   mkWatcherClass (Some wt) (if loop_running p then 1 else 0)).
Proof.
  cbv zeta. cbn [get_watcher_calls]. unfold _get_watcher at 1. cbn [_watcher].
  destruct (loop_running p); by erewrite get_watcher_calls_set by reflexivity.
Qed.

Ltac stderr_is_done :=
  match goal with
  | I : StderrIs _ _ |- _ =>
      unfold StderrIs in *; py_unfold;
      repeat match goal with
             | H : _stderr (self _) = _ |- _ => rewrite H in *
             end;
      try assumption; try reflexivity; try congruence
  end.

Lemma stderr_is_spooler_read_ready b r : preserves (StderrIs b) (Spooler__read_ready r).
Proof. intros w I. py; stderr_is_done. Qed.

Lemma stderr_is_spooler_drain b : forall avail, preserves (StderrIs b) (Spooler_drain avail).
Proof. preserved_by_drain (stderr_is_spooler_read_ready b). Qed.

Lemma stderr_is_call b c w : StderrIs b w -> StderrIs b (exec c w).
Proof.
  intros I. destruct c.
  7: preserved_by_get_stderr (stderr_is_spooler_drain b).
  all: py; stderr_is_done.
Qed.

Lemma on_pipes_initial window kw os :
  on_pipes kw os (new_SubprocessTransport false window kw os).
Proof.
  init_unfold. destruct window as [[rows cols]|], kw as [[| | |fd]|]; py;
    split; unfold is_a, StderrIs; py_unfold; done.
Qed.

Lemma on_pipes_run kw os cs w : on_pipes kw os w -> on_pipes kw os (run cs w).
Proof.
  revert w. induction cs as [|c cs IH]; intros w I; [done|].
  apply IH. destruct I. split; [by apply is_a_call | by apply stderr_is_call].
Qed.

(** X19: the subprocess transport on pipes.  Without a pseudo-terminal the
    [window] argument is ignored.  In every state that follows the
    constructor, [can_write_eof()] is True, and a half-close that is due
    closes the child's stdin pipe and gives up the output descriptor; stderr
    has a Spooler exactly when the caller asked for [stderr=PIPE], and
    otherwise [get_stderr()] is [b''] and does nothing. *)
Theorem pipe_subprocess_can_half_close window kw_stderr os cs :
  new_SubprocessTransport false window kw_stderr os =
    new_SubprocessTransport false None kw_stderr os ∧
  can_write_eof (run cs (new_SubprocessTransport false window kw_stderr os)) =
    (Ok true, run cs (new_SubprocessTransport false window kw_stderr os)) ∧
  _write_eof_now (run cs (new_SubprocessTransport false window kw_stderr os)) =
    (Ok tt,
     mkWorld (set_out_fd (-1) (self (run cs (new_SubprocessTransport false window kw_stderr os))))
             (loop (run cs (new_SubprocessTransport false window kw_stderr os)))
             (trace (run cs (new_SubprocessTransport false window kw_stderr os))
                ++ [stdin_closed (stdin_fileno os)])) ∧
  (_stderr (self (run cs (new_SubprocessTransport false window kw_stderr os))) ≠ None <->
   kw_stderr = Some PIPE) ∧
  (kw_stderr ≠ Some PIPE -> forall avail,
     get_stderr avail (run cs (new_SubprocessTransport false window kw_stderr os)) =
     (Ok [], run cs (new_SubprocessTransport false window kw_stderr os))).
Proof.
  pose proof (on_pipes_run kw_stderr os cs _ (on_pipes_initial window kw_stderr os))
    as [[Hsub _] Hst].
  generalize dependent (run cs (new_SubprocessTransport false window kw_stderr os)).
  intros w Hsub Hst. unfold StderrIs in Hst. split_all.
  - by destruct window as [[??]|].
  - unfold Popen_, Popen_stream in Hsub. by py.
  - unfold Popen_, Popen_stream in Hsub. by py.
  - destruct (_stderr (self w)), kw_stderr as [[| | |fd]|]; split; done.
  - intros Hkw avail.
    destruct (_stderr (self w)) eqn:Hs, kw_stderr as [[| | |fd]|]; try done; by py.
Qed.

Lemma pipe_subprocess_can_half_close_witness :
  get_stderr [RdData abc] (run [DoClose] (new_SubprocessTransport false None None spawn0)) =
  (Ok [], run [DoClose] (new_SubprocessTransport false None None spawn0)).
Proof.
  exact (proj2 (proj2 (proj2 (proj2 (pipe_subprocess_can_half_close
                  None None spawn0 [DoClose])))) ltac:(discriminate) [RdData abc]).
Defined.

Lemma closes_app tr1 tr2 : closes (tr1 ++ tr2) = closes tr1 ++ closes tr2.
Proof. apply List.filter_app. Qed.

Ltac close_done :=
  match goal with
  | I : CloseInv _ _ _ |- _ =>
      unfold CloseInv in *; py_unfold;
      repeat match goal with
             | H : _stderr (self _) = _ |- _ => rewrite H in *
             end;
      py_unfold; bool_facts;
      repeat match goal with
             | H : ?x = -1 |- _ => rewrite H in *
             | H : ?x ≠ -1 |- _ => apply Z.eqb_neq in H; rewrite H in *
             end;
      cbn [Z.eqb Pos.eqb] in *;
      rewrite ?closes_app; cbn [closes List.filter is_os_closed];
      rewrite ?app_nil_r;
      try assumption;
      try (destruct I as [-> ->]; reflexivity);
      try (destruct I as [<- ->]; reflexivity);
      try congruence
  end.

Lemma close_inv_spooler_read_ready ctor fd r :
  preserves (CloseInv ctor fd) (Spooler__read_ready r).
Proof. intros w I. py; close_done. Qed.

Lemma close_inv_spooler_drain ctor fd :
  forall avail, preserves (CloseInv ctor fd) (Spooler_drain avail).
Proof. preserved_by_drain (close_inv_spooler_read_ready ctor fd). Qed.

Lemma close_inv_call ctor fd c w : CloseInv ctor fd w -> CloseInv ctor fd (exec c w).
Proof.
  intros I. destruct c.
  7: preserved_by_get_stderr (close_inv_spooler_drain ctor fd).
  all: py; close_done.
Qed.

Lemma close_inv_run ctor fd cs w : CloseInv ctor fd w -> CloseInv ctor fd (run cs w).
Proof.
  revert w. induction cs as [|c cs IH]; intros w I; [done|].
  apply IH. by apply close_inv_call.
Qed.

Lemma stderr_is_run b cs w : StderrIs b w -> StderrIs b (run cs w).
Proof.
  revert w. induction cs as [|c cs IH]; intros w I; [done|].
  apply IH. by apply stderr_is_call.
Qed.

Lemma close_inv_initial w :
  initial w ->
  CloseInv (closes (trace w)) (default 0 (sp_fd <$> _stderr (self w))) w.
Proof.
  destruct 1 as [sock| |pty window kw os [Hdup _]]; init_unfold.
  3: destruct pty, window as [[rows cols]|], kw as [[| | |fd]|],
       (openpty os) as [master session_fd].
  all: py; unfold CloseInv; py_unfold; try reflexivity.
  all: by destruct (Z.eqb_spec (dup_fd os) (-1)).
Qed.

Ltac stdin_done :=
  match goal with
  | I : StdinInv _ _ |- _ =>
      let He := fresh "He" in
      let Hin := fresh "Hin" in
      unfold StdinInv in *; py_unfold; destruct I as [He Hin];
      split; [first [assumption | congruence]|];
      intros ? ?; elem_facts; simplify_eq;
      first [ by apply Hin | congruence
            | match goal with
              | H : sub (self _) = _ |- _ => rewrite H; assumption
              end ]
  end.

Lemma stdin_inv_spooler_read_ready e r : preserves (StdinInv e) (Spooler__read_ready r).
Proof. intros w I. py; stdin_done. Qed.

Lemma stdin_inv_spooler_drain e : forall avail, preserves (StdinInv e) (Spooler_drain avail).
Proof. preserved_by_drain (stdin_inv_spooler_read_ready e). Qed.

Lemma stdin_inv_call e c w : StdinInv e w -> StdinInv e (exec c w).
Proof.
  intros I. destruct c.
  7: preserved_by_get_stderr (stdin_inv_spooler_drain e).
  all: py; stdin_done.
Qed.

Lemma stdin_inv_run e cs w : StdinInv e w -> StdinInv e (run cs w).
Proof.
  revert w. induction cs as [|c cs IH]; intros w I; [done|].
  apply IH. by apply stdin_inv_call.
Qed.

Lemma stdin_inv_initial w : initial w -> StdinInv (sub (self w)) w.
Proof.
  destruct 1 as [sock| |pty window kw os _]; init_unfold.
  3: destruct pty, window as [[rows cols]|], kw as [[| | |fd]|],
       (openpty os) as [master session_fd].
  all: py; unfold StdinInv; py_unfold; refine (conj eq_refl _);
    intros ? ?; elem_facts; simplify_eq.
Qed.

Lemma half_close_inv_run cs w : HalfCloseInv w -> HalfCloseInv (run cs w).
Proof.
  revert w. induction cs as [|c cs IH]; intros w I; [done|].
  apply IH. by apply half_close_inv_call.
Qed.

(** X20: what the transport closes once it is constructed.  Whatever is
    called after the constructor has returned (and whatever the constructor
    closed itself), the only [os.close] made is that of the stderr Spooler's
    own descriptor, made once, when the Spooler has met the end of stderr; the
    only file object closed is the stdin pipe of the child, by the half-close,
    at most once.  [close()] and [abort()] close nothing: the descriptors the
    transport was given stay open. *)
Theorem descriptors_closed_after_construction w0 cs :
  initial w0 ->
  closes (trace (run cs w0)) =
    closes (trace w0) ++
    match _stderr (self w0), _stderr (self (run cs w0)) with
    | Some sp0, Some sp => if sp_fd sp =? -1 then [os_closed (sp_fd sp0)] else []
    | _, _ => []
    end ∧
  (forall fd, stdin_closed fd ∈ trace (run cs w0) ->
     exists process pty_fd,
       sub (self w0) = SubprocessTransport process pty_fd ∧ p_stdin process = Some fd) ∧
  (count is_half_close (trace (run cs w0)) <= 1)%nat ∧
  (forall w,
     closes (trace (exec DoClose w)) = closes (trace w) ∧
     closes (trace (exec DoAbort w)) = closes (trace w) ∧
     count is_half_close (trace (exec DoClose w)) = count is_half_close (trace w) ∧
     count is_half_close (trace (exec DoAbort w)) = count is_half_close (trace w)).
Proof.
  intros Hw0. split_all.
  - pose proof (close_inv_run _ _ cs w0 (close_inv_initial w0 Hw0)) as I'.
    unfold CloseInv in I'.
    pose proof (stderr_is_run (bool_decide (_stderr (self w0) ≠ None)) cs w0) as Hs.
    unfold StderrIs in Hs.
    destruct (_stderr (self w0)) as [sp0|] eqn:E0.
    + destruct (_stderr (self (run cs w0))) as [sp|]; [|by rewrite app_nil_r].
      cbn [fmap option_fmap option_map default from_option] in I'.
      destruct (sp_fd sp =? -1); [done|]. destruct I' as [_ ->]. by rewrite app_nil_r.
    + specialize (Hs eq_refl).
      destruct (_stderr (self (run cs w0))) as [sp|]; [done|]. by rewrite app_nil_r.
  - intros fd Hfd.
    destruct (stdin_inv_run _ cs w0 (stdin_inv_initial w0 Hw0)) as [_ Hin].
    specialize (Hin fd Hfd). destruct (sub (self w0)) as [process pty_fd| |]; [|done..].
    by exists process, pty_fd.
  - destruct (half_close_inv_run cs w0 (half_close_inv_initial w0 Hw0)) as [I|[I _]]; lia.
  - intros w. split_all; py; rewrite ?closes_app, ?count_app;
      cbn [closes List.filter is_os_closed count is_half_close];
      rewrite ?app_nil_r; first [reflexivity | lia].
Qed.

Lemma descriptors_closed_after_construction_witness :
  closes (trace (run [DoGetStderr [RdData abc; RdData []]; DoWriteEof; DoClose; DoAbort]
                     (new_SubprocessTransport false None (Some PIPE) spawn0))) =
  [os_closed 9].
Proof.
  refine (eq_trans (proj1 (descriptors_closed_after_construction
            (new_SubprocessTransport false None (Some PIPE) spawn0)
            [DoGetStderr [RdData abc; RdData []]; DoWriteEof; DoClose; DoAbort] _)) _).
  - constructor. vm_compute. split; discriminate.
  - vm_compute. reflexivity.
Defined.

(** X21: what is read is delivered, in order.  A run of [_read_ready] calls
    whose reads all return data hands the protocol exactly those chunks, one
    [data_received] each, in order, and changes nothing else; the protocol's
    answer about staying open is not consulted. *)
Theorem reads_are_delivered_in_order (chunks : list (bytes * bool)) w :
  Forall (fun c => c.1 ≠ []) chunks ->
  run ((fun c => OnReadReady (RdData c.1) c.2) <$> chunks) w =
  mkWorld (self w) (loop w) (trace w ++ (data_received <$> chunks.*1)).
Proof.
  revert w. induction chunks as [|[data k] chunks IH]; intros w Hne.
  - cbn. by rewrite app_nil_r, world_eta.
  - apply Forall_cons in Hne as [Hd Hne]. cbn [fst] in Hd.
    cbn [fmap list_fmap run foldl fst snd].
    assert (exec (OnReadReady (RdData data) k) w =
            mkWorld (self w) (loop w) (trace w ++ [data_received data])) as ->
      by (destruct data; [done|]; py; reflexivity).
    change (foldl (λ w c, exec c w) ?w0 ?cs) with (run cs w0).
    rewrite IH by done. cbn [self loop trace]. by rewrite <-app_assoc.
Qed.

Lemma reads_are_delivered_in_order_witness :
  trace (run [OnReadReady (RdData abc) true; OnReadReady (RdData de) false]
             (new_SocketTransport 5)) =
  [connection_made; data_received abc; data_received de].
Proof.
  change (run [OnReadReady (RdData abc) true; OnReadReady (RdData de) false]
              (new_SocketTransport 5))
    with (run ((fun c => OnReadReady (RdData c.1) c.2) <$> [(abc, true); (de, false)])
              (new_SocketTransport 5)).
  rewrite (reads_are_delivered_in_order [(abc, true); (de, false)] (new_SocketTransport 5)).
  - reflexivity.
  - repeat constructor; discriminate.
Defined.
